(** * LinkedIn job search server: the search-and-retrieval pipeline

    A shallow embedding of [src/index.ts]: the [JobCache] class, the [Query]
    class (constructor, filter getters, [url], [getJobs], [fetchJobBatch])
    and [parseJobList], followed by the properties of the specification.

    Modelling conventions.
    - A JavaScript string is a [string] whose characters are the code units
      U+0000..U+00FF.  [trim], [\s], [toLowerCase] and the percent-encoding of
      [URLSearchParams] are written out for that range.
    - A JavaScript number that the code uses as a count, an offset, a limit
      or a time stamp is an integer [Z]; the one place where the code coerces
      ([Number(x) || 0]) takes a [jsnum], an integer or [NaN].  Arithmetic on
      [Z] is the arithmetic of the code on safe integers (up to 2^53 - 1 in
      magnitude); the one computation that a caller can push beyond them is
      the offset of an address ([exact_start]).
    - The lookup tables of the filter getters are object literals: reading
      [table[key]] finds the own properties and, failing those, the
      properties inherited from [Object.prototype] ([JsObject.get]).
    - The network ([axios.get]), the markup parser ([cheerio]) and
      [Math.random] are outside the repository: they are the variables of
      [Section Pipeline].  Time is the [clock] field of the [world]; it
      moves on while the pipeline waits ([delay]) and while a request is
      awaited ([axios_ms]).
    - An exception is a [Thrown] completion; [try]/[catch] is a match.
    - The [while] loop of [getJobs] need not end (a network that always
      answers with a full page, and no limit): [run_loop] takes the number of
      turns it may take and gives [None] when they do not suffice. *)

From stdpp Require Import gmap strings list fin_maps pretty.
From Stdlib Require Import ZArith Ascii String.

Local Open Scope string_scope.
Local Open Scope list_scope.
Local Open Scope Z_scope.

(* ------------------------------------------------------------------ *)
(** ** Strings *)

Module JsString.

Definition code (c : ascii) : N := N_of_ascii c.

(** White space of ECMAScript ([WhiteSpace] and [LineTerminator]) below
    U+0100: TAB, LF, VT, FF, CR, SP and NBSP.  [trim] and [\s] share it. *)
Definition is_space (c : ascii) : bool :=
  let n := code c in
  ((9 <=? n) && (n <=? 13) || (n =? 32) || (n =? 160))%N.

Fixpoint trimStart (s : string) : string :=
  match s with
  | EmptyString => EmptyString
  | String c s' => if is_space c then trimStart s' else s
  end.

Fixpoint trimEnd (s : string) : string :=
  match s with
  | EmptyString => EmptyString
  | String c s' =>
      match trimEnd s' with
      | EmptyString => if is_space c then EmptyString else String c EmptyString
      | r => String c r
      end
  end.

(** [s.trim()] *)
Definition trim (s : string) : string := trimEnd (trimStart s).

(** [s.replace(/\s+/g, sep)]: every maximal run of white space becomes one
    [sep].  [in_run] tells that the previous character was white space. *)
Fixpoint replace_ws_go (sep : string) (in_run : bool) (s : string) : string :=
  match s with
  | EmptyString => EmptyString
  | String c s' =>
      if is_space c
      then (if in_run then replace_ws_go sep true s'
            else sep +:+ replace_ws_go sep true s')
      else String c (replace_ws_go sep false s')
  end.

Definition replace_ws (sep : string) (s : string) : string :=
  replace_ws_go sep false s.

(** [toLowerCase] on one code unit: A-Z, and the Latin-1 capitals
    U+00C0..U+00DE without the multiplication sign U+00D7. *)
Definition lower_char (c : ascii) : ascii :=
  let n := code c in
  if ((65 <=? n) && (n <=? 90)
      || (192 <=? n) && (n <=? 222) && negb (n =? 215))%N
  then ascii_of_N (n + 32) else c.

Fixpoint toLowerCase (s : string) : string :=
  match s with
  | EmptyString => EmptyString
  | String c s' => String (lower_char c) (toLowerCase s')
  end.

Fixpoint contains (c : ascii) (s : string) : bool :=
  match s with
  | EmptyString => false
  | String a s' => if decide (a = c) then true else contains c s'
  end.

(** Truthiness of a string: [""] is the only falsy one. *)
Definition truthy (s : string) : bool :=
  match s with EmptyString => false | _ => true end.

(** [s || d] for strings. *)
Definition or_else (s d : string) : string := if truthy s then s else d.

End JsString.

(* ------------------------------------------------------------------ *)
(** ** [URLSearchParams]: the application/x-www-form-urlencoded serializer *)

Module UrlEncoded.
Import JsString.

(** The upper-case hexadecimal digit of [n < 16]. *)
Definition hex_digit (n : N) : ascii :=
  ascii_of_N (if (n <? 10)%N then 48 + n else 55 + n).

(** [%XY] for one byte. *)
Definition percent (b : N) (rest : string) : string :=
  String "%" (String (hex_digit (b / 16)) (String (hex_digit (b mod 16)) rest)).

(** Characters the serializer leaves alone: ASCII letters and digits and
    [*], [-], [.], [_]. *)
Definition unreserved (c : ascii) : bool :=
  let n := code c in
  ((48 <=? n) && (n <=? 57) || (65 <=? n) && (n <=? 90)
   || (97 <=? n) && (n <=? 122)
   || (n =? 42) || (n =? 45) || (n =? 46) || (n =? 95))%N.

(** One code unit: kept, turned into [+] (the space), or percent-encoded
    from its UTF-8 bytes (one byte below U+0080, two from there on). *)
Definition encode_char (c : ascii) (rest : string) : string :=
  let n := code c in
  if unreserved c then String c rest
  else if (n =? 32)%N then String "+" rest
  else if (n <? 128)%N then percent n rest
  else percent (192 + n / 64) (percent (128 + n mod 64) rest).

Fixpoint encode (s : string) : string :=
  match s with
  | EmptyString => EmptyString
  | String c s' => encode_char c (encode s')
  end.

Definition encode_pair (p : string * string) : string :=
  encode p.1 +:+ String "=" (encode p.2).

(** [params.toString()]: the pairs in insertion order, joined by [&]. *)
Fixpoint serialize (ps : list (string * string)) : string :=
  match ps with
  | [] => EmptyString
  | [p] => encode_pair p
  | p :: ps' => encode_pair p +:+ String "&" (serialize ps')
  end.

End UrlEncoded.

(* ------------------------------------------------------------------ *)
(** ** Numbers and object literals *)

(** A number as the constructor receives it: an integer or [NaN]. *)
Inductive jsnum := Int (z : Z) | NaN.

(** [Number(x)] of an optional number: [undefined] gives [NaN]. *)
Definition Number (x : option jsnum) : jsnum :=
  match x with Some n => n | None => NaN end.

(** [n || 0]: [NaN] and [0] are the falsy numbers. *)
Definition or_zero (n : jsnum) : Z :=
  match n with Int z => z | NaN => 0 end.

Module JsObject.
Import JsString.

(** What [String(f)] is for a built-in function [f]. *)
Definition native (name : string) : string :=
  "function " +:+ name +:+ "() { [native code] }".

Definition prototype_methods : list string :=
  [ "toString"; "toLocaleString"; "valueOf";
    "hasOwnProperty"; "isPrototypeOf"; "propertyIsEnumerable";
    "__defineGetter__"; "__defineSetter__";
    "__lookupGetter__"; "__lookupSetter__" ].

(** The properties an object literal inherits from [Object.prototype],
    each given by its [String] conversion (all of them are objects, hence
    truthy): [constructor], which is the function [Object]; [__proto__],
    the prototype itself; and the built-in methods. *)
Definition prototype_get (k : string) : option string :=
  if decide (k = "constructor") then Some (native "Object")
  else if decide (k = "__proto__") then Some "[object Object]"
  else if decide (k ∈ prototype_methods) then Some (native k)
  else None.

(** [table[k]] for an object literal [table]: an own property shadows an
    inherited one; [None] is [undefined]. *)
Definition get (table : gmap string string) (k : string) : option string :=
  match table !! k with
  | Some v => Some v
  | None => prototype_get k
  end.

(** [table[k] || ""] *)
Definition get_or_empty (table : gmap string string) (k : string) : string :=
  match get table k with
  | Some v => or_else v ""
  | None => ""
  end.

End JsObject.

(* ------------------------------------------------------------------ *)
(** ** Data model *)

Module JobData.
Record t := mk {
  position : string;
  company : string;
  location : string;
  date : option string;
  salary : string;
  jobUrl : string;
  companyLogo : string;
  agoTime : string
}.
End JobData.

Module QueryObject.
Record t := mk {
  host : option string;
  keyword : option string;
  location : option string;
  dateSincePosted : option string;
  jobType : option string;
  remoteFilter : option string;
  salary : option string;
  experienceLevel : option string;
  sortBy : option string;
  limit : option jsnum;
  page : option jsnum
}.

End QueryObject.

Record Query := mkQuery {
  host : string;
  keyword : string;
  location : string;
  dateSincePosted : string;
  jobType : string;
  remoteFilter : string;
  salary : string;
  experienceLevel : string;
  sortBy : string;
  limit : Z;
  page : Z
}.

(* ------------------------------------------------------------------ *)
(** ** The [Query] class: constructor, filter getters and [url] *)

Import JsString.

(** [x || d] for an optional string. *)
Definition str_or (x : option string) (d : string) : string :=
  match x with Some s => or_else s d | None => d end.

(** [x?.trim().replace(/\s+/g, "+") || ""] *)
Definition normalize (x : option string) : string :=
  match x with
  | Some s => or_else (replace_ws "+" (trim s)) ""
  | None => ""
  end.

Definition Query_new (queryObj : QueryObject.t) : Query :=
  {| host := str_or (QueryObject.host queryObj) "www.linkedin.com";
     keyword := normalize (QueryObject.keyword queryObj);
     location := normalize (QueryObject.location queryObj);
     dateSincePosted := str_or (QueryObject.dateSincePosted queryObj) "";
     jobType := str_or (QueryObject.jobType queryObj) "";
     remoteFilter := str_or (QueryObject.remoteFilter queryObj) "";
     salary := str_or (QueryObject.salary queryObj) "";
     experienceLevel := str_or (QueryObject.experienceLevel queryObj) "";
     sortBy := str_or (QueryObject.sortBy queryObj) "";
     limit := or_zero (Number (QueryObject.limit queryObj));
     page := or_zero (Number (QueryObject.page queryObj)) |}.

Definition dateRange : gmap string string :=
  list_to_map [("past month", "r2592000"); ("past week", "r604800");
               ("24hr", "r86400")].

Definition experienceRange : gmap string string :=
  list_to_map [("internship", "1"); ("entry level", "2"); ("associate", "3");
               ("senior", "4"); ("director", "5"); ("executive", "6")].

Definition jobTypeRange : gmap string string :=
  list_to_map [("full time", "F"); ("full-time", "F"); ("part time", "P");
               ("part-time", "P"); ("contract", "C"); ("temporary", "T");
               ("volunteer", "V"); ("internship", "I")].

Definition remoteFilterRange : gmap string string :=
  list_to_map [("on-site", "1"); ("on site", "1"); ("remote", "2");
               ("hybrid", "3")].

Definition salaryRange : gmap string string :=
  list_to_map [("40000", "1"); ("60000", "2"); ("80000", "3");
               ("100000", "4"); ("120000", "5")].

Definition getDateSincePosted (q : Query) : string :=
  JsObject.get_or_empty dateRange (toLowerCase (dateSincePosted q)).

Definition getExperienceLevel (q : Query) : string :=
  JsObject.get_or_empty experienceRange (toLowerCase (experienceLevel q)).

Definition getJobType (q : Query) : string :=
  JsObject.get_or_empty jobTypeRange (toLowerCase (jobType q)).

Definition getRemoteFilter (q : Query) : string :=
  JsObject.get_or_empty remoteFilterRange (toLowerCase (remoteFilter q)).

Definition getSalary (q : Query) : string :=
  JsObject.get_or_empty salaryRange (salary q).

(** [this.page * 25].  The numbers of the code are doubles: this product,
    and the sum [start + this.getPage()] that [url] prints, are the integers
    computed here as long as operands and results are safe integers
    ([exact_start] below); beyond that range the code rounds, the model does
    not, and the theorems on addresses that depend on the value of the
    offset state the range as a hypothesis. *)
Definition getPage (q : Query) : Z := page q * 25.

(** [Number.MAX_SAFE_INTEGER] *)
Definition MAX_SAFE_INTEGER : Z := 2 ^ 53 - 1.

(** [Number.isSafeInteger(z)] for an integer [z]. *)
Definition safe_integer (z : Z) : Prop :=
  - MAX_SAFE_INTEGER ≤ z ≤ MAX_SAFE_INTEGER.

(** The offset of [url(start)] is computed and printed exactly. *)
Definition exact_start (q : Query) (start : Z) : Prop :=
  safe_integer (page q) ∧ safe_integer (page q * 25)
  ∧ safe_integer start ∧ safe_integer (start + page q * 25).

(** [if (value) params.append(name, value)] *)
Definition append_if (name value : string) (params : list (string * string))
  : list (string * string) :=
  if truthy value then params ++ [(name, value)] else params.

Definition url_params (q : Query) (start : Z) : list (string * string) :=
  let params := [] in
  let params := append_if "keywords" (keyword q) params in
  let params := append_if "location" (location q) params in
  let params := append_if "f_TPR" (getDateSincePosted q) params in
  let params := append_if "f_SB2" (getSalary q) params in
  let params := append_if "f_E" (getExperienceLevel q) params in
  let params := append_if "f_WT" (getRemoteFilter q) params in
  let params := append_if "f_JT" (getJobType q) params in
  let params := params ++ [("start", pretty (start + getPage q))] in
  if decide (sortBy q = "recent") then params ++ [("sortBy", "DD")]
  else if decide (sortBy q = "relevant") then params ++ [("sortBy", "R")]
  else params.

Definition url (q : Query) (start : Z) : string :=
  "https://" +:+ host q +:+ "/jobs-guest/jobs/api/seeMoreJobPostings/search?"
  +:+ UrlEncoded.serialize (url_params q start).

(* ------------------------------------------------------------------ *)
(** ** The [JobCache] class *)

Record cache_item := mkItem {
  data : list JobData.t;
  timestamp : Z
}.

(** [1000 * 60 * 60], one hour in milliseconds. *)
Definition TTL : Z := 1000 * 60 * 60.

(** The methods take the value of [Date.now()] as [now]. *)
Definition JobCache_set (now : Z) (key : string) (value : list JobData.t)
    (cache : gmap string cache_item) : gmap string cache_item :=
  <[key := {| data := value; timestamp := now |}]> cache.

Definition JobCache_get (now : Z) (key : string)
    (cache : gmap string cache_item)
  : option (list JobData.t) * gmap string cache_item :=
  match cache !! key with
  | None => (None, cache)
  | Some item =>
      if TTL <? now - timestamp item then (None, delete key cache)
      else (Some (data item), cache)
  end.

Definition JobCache_clear (now : Z) (cache : gmap string cache_item)
  : gmap string cache_item :=
  filter (λ kv, ¬ (TTL < now - timestamp kv.2)) cache.

Definition JobCache_getCacheSize (cache : gmap string cache_item) : nat :=
  size cache.

(* ------------------------------------------------------------------ *)
(** ** The world the pipeline runs in *)

Inductive js_error :=
  | RateLimitReached                  (* [new Error("Rate limit reached")] *)
  | AxiosError (status : option Z).   (* a status other than 200, or no response *)

Inductive completion (A : Type) :=
  | Returned (a : A)
  | Thrown (e : js_error).
Arguments Returned {A} a.
Arguments Thrown {A} e.

(** What one [axios.get] comes back with. *)
Inductive http_result :=
  | Response (status : Z) (body : string)
  | NoResponse.

Inductive event :=
  | Request (target : string)   (* one outbound [axios.get] *)
  | Sleep (ms : Z).             (* one [await delay(ms)] *)

Record world := mkWorld {
  cache : gmap string cache_item;   (* the module-level [cache] singleton *)
  clock : Z;                        (* [Date.now()] *)
  requests : nat;                   (* how many requests were issued so far *)
  trace : list event                (* what the pipeline did, oldest first *)
}.

Definition delay (ms : Z) (w : world) : world :=
  {| cache := cache w; clock := clock w + ms; requests := requests w;
     trace := trace w ++ [Sleep ms] |}.

(** One outbound request leaves for [target]. *)
Definition request (target : string) (w : world) : world :=
  {| cache := cache w; clock := clock w; requests := S (requests w);
     trace := trace w ++ [Request target] |}.

(** Time passes: [Date.now()] moves on by [ms]. *)
Definition elapse (ms : Z) (w : world) : world :=
  {| cache := cache w; clock := clock w + ms; requests := requests w;
     trace := trace w |}.

Definition cache_get (key : string) (w : world)
  : option (list JobData.t) * world :=
  let '(r, c) := JobCache_get (clock w) key (cache w) in
  (r, {| cache := c; clock := clock w; requests := requests w;
         trace := trace w |}).

Definition cache_set (key : string) (value : list JobData.t) (w : world)
  : world :=
  {| cache := JobCache_set (clock w) key value (cache w); clock := clock w;
     requests := requests w; trace := trace w |}.

(** [export const clearCache] and [getCacheSize]. *)
Definition clearCache (w : world) : world :=
  {| cache := JobCache_clear (clock w) (cache w); clock := clock w;
     requests := requests w; trace := trace w |}.

Definition getCacheSize (w : world) : nat := JobCache_getCacheSize (cache w).

(* ------------------------------------------------------------------ *)
(** ** [parseJobList] *)

(** What the selectors of [parseJobList] read off one [li] element:
    [.text()] of a selection is a string (empty when nothing matches),
    [.attr(name)] is optional. *)
Record li_card := mkCard {
  title_text : string;               (* .base-search-card__title *)
  subtitle_text : string;            (* .base-search-card__subtitle *)
  location_text : string;            (* .job-search-card__location *)
  time_datetime : option string;     (* time[datetime] *)
  salary_text : string;              (* .job-search-card__salary-info *)
  link_href : option string;         (* .base-card__full-link[href] *)
  logo_delayed_url : option string;  (* .artdeco-entity-image[data-delayed-url] *)
  listdate_text : string             (* .job-search-card__listdate *)
}.

(** The body of the callback given to [jobs.map], inside its [try]. *)
Definition parse_card (job : li_card) : option JobData.t :=
  let position := trim (title_text job) in
  let company := trim (subtitle_text job) in
  let location := trim (location_text job) in
  let date := time_datetime job in
  let salary := replace_ws " " (trim (salary_text job)) in
  let jobUrl := link_href job in
  let companyLogo := logo_delayed_url job in
  let agoTime := trim (listdate_text job) in
  if negb (truthy position) || negb (truthy company) then None
  else Some {| JobData.position := position;
               JobData.company := company;
               JobData.location := location;
               JobData.date := date;
               JobData.salary := or_else salary "Not specified";
               JobData.jobUrl := str_or jobUrl "";
               JobData.companyLogo := str_or companyLogo "";
               JobData.agoTime := or_else agoTime "" |}.

(** The callback with its [try]/[catch]: an element whose reading throws
    ([None]) gives [null]. *)
Definition parse_element (element : option li_card) : option JobData.t :=
  match element with
  | Some job => parse_card job
  | None => None
  end.

(** [l.slice(0, e)]: a negative [e] counts from the end. *)
Definition slice0 {A} (l : list A) (e : Z) : list A :=
  if e <? 0 then take (Z.to_nat (Z.of_nat (List.length l) + e)) l
  else take (Z.to_nat e) l.

Definition BATCH_SIZE : Z := 25.
Definition MAX_CONSECUTIVE_ERRORS : Z := 3.

(** The variables of the [while] loop of [getJobs].  ([hasMore] is [true]
    whenever the loop condition is read: the one assignment to it is
    followed by [break].) *)
Record loop_state := mkLoop {
  allJobs : list JobData.t;
  start : Z;
  consecutiveErrors : Z
}.

(** The three [break]s of the loop, in source order. *)
Inductive stop :=
  | EmptyPage        (* [!jobs || jobs.length === 0] *)
  | LimitReached     (* [this.limit && allJobs.length >= this.limit] *)
  | MaxErrors.       (* [consecutiveErrors >= MAX_CONSECUTIVE_ERRORS] *)

Inductive iteration :=
  | Continue (st : loop_state) (w : world)
  | Break (why : stop) (jobs : list JobData.t) (w : world).

Section Pipeline.

(** [cheerio.load(data)] followed by [$("li")]: [None] when that throws,
    else the [li] elements in document order, each [None] when reading it
    throws. *)
Variable cheerio_li : string → option (list (option li_card)).

(** The [n]-th request of a run, to the given address. *)
Variable axios_get : nat → string → http_result.

(** [Math.random() * 1000] after the [n]-th request. *)
Variable random_ms : nat → Z.

(** How long the [n]-th request takes, from the call of [axios.get] to its
    outcome: [Date.now()] moves on while the request is awaited. *)
Variable axios_ms : nat → Z.

(** One request leaves for [target] and is awaited. *)
Definition send_request (target : string) (w : world) : world :=
  elapse (axios_ms (requests w)) (request target w).

Definition parseJobList (jobData : string) : list JobData.t :=
  match cheerio_li jobData with
  | Some jobs => omap parse_element jobs
  | None => []
  end.

Definition fetchJobBatch (q : Query) (start : Z) (w : world)
  : completion (list JobData.t) * world :=
  let target := url q start in
  let w' := send_request target w in
  match axios_get (requests w) target with
  | Response status body =>
      if status =? 200 then (Returned (parseJobList body), w')
      else if status =? 429 then (Thrown RateLimitReached, w')
      else (Thrown (AxiosError (Some status)), w')
  | NoResponse => (Thrown (AxiosError None), w')
  end.

(** One turn of the [while] loop. *)
Definition loop_body (q : Query) (st : loop_state) (w : world) : iteration :=
  let '(r, w) := fetchJobBatch q (start st) w in
  match r with
  | Returned jobs =>
      if (List.length jobs =? 0)%nat then Break EmptyPage (allJobs st) w
      else
        let all := allJobs st ++ jobs in
        if negb (limit q =? 0) && (limit q <=? Z.of_nat (List.length all))
        then Break LimitReached (slice0 all (limit q)) w
        else
          Continue {| allJobs := all;
                      start := start st + BATCH_SIZE;
                      consecutiveErrors := 0 |}
                   (delay (2000 + random_ms (requests w)) w)
  | Thrown _ =>
      let errors := consecutiveErrors st + 1 in
      if MAX_CONSECUTIVE_ERRORS <=? errors
      then Break MaxErrors (allJobs st) w
      else
        Continue {| allJobs := allJobs st;
                    start := start st;
                    consecutiveErrors := errors |}
                 (delay (2 ^ errors * 1000) w)
  end.

(** The loop, for at most [fuel] turns; [None] when they do not suffice. *)
Fixpoint run_loop (fuel : nat) (q : Query) (st : loop_state) (w : world)
  : option (stop * list JobData.t * world) :=
  match fuel with
  | O => None
  | S fuel' =>
      match loop_body q st w with
      | Break why jobs w' => Some (why, jobs, w')
      | Continue st' w' => run_loop fuel' q st' w'
      end
  end.

Definition loop_init : loop_state :=
  {| allJobs := []; start := 0; consecutiveErrors := 0 |}.

(** [getJobs]: the outer [catch] rethrows, and nothing inside the outer
    [try] throws outside the inner one, so every completion is [Returned]. *)
Definition getJobs (fuel : nat) (q : Query) (w : world)
  : option (completion (list JobData.t) * world) :=
  let cacheKey := url q 0 in
  let '(cachedJobs, w) := cache_get cacheKey w in
  match cachedJobs with
  | Some jobs => Some (Returned jobs, w)
  | None =>
      match run_loop fuel q loop_init w with
      | None => None
      | Some (_, allJobs, w) =>
          let w := if (0 <? List.length allJobs)%nat
                   then cache_set (url q 0) allJobs w else w in
          Some (Returned allJobs, w)
      end
  end.

End Pipeline.

(* ------------------------------------------------------------------ *)
(** ** Auxiliary definitions of the proofs *)

(** A reader for [UrlEncoded.encode_char], used to show that the encoding
    loses nothing. *)
Module UrlDecode.

Definition hex_value (c : ascii) : option N :=
  let n := JsString.code c in
  if ((48 <=? n) && (n <=? 57))%N then Some (n - 48)%N
  else if ((65 <=? n) && (n <=? 70))%N then Some (n - 55)%N
  else None.

Definition decode_byte (s : string) : option (N * string) :=
  match s with
  | String "%" (String h (String l r)) =>
      match hex_value h, hex_value l with
      | Some a, Some b => Some (16 * a + b, r)%N
      | _, _ => None
      end
  | _ => None
  end.

Definition decode_char (s : string) : option (ascii * string) :=
  match s with
  | EmptyString => None
  | String "+" r => Some (" "%char, r)
  | String "%" _ =>
      match decode_byte s with
      | Some (b, r) =>
          if (b <? 128)%N then Some (ascii_of_N b, r)
          else
            match decode_byte r with
            | Some (b2, r2) =>
                Some (ascii_of_N ((b - 192) * 64 + (b2 - 128)), r2)
            | None => None
            end
      | None => None
      end
  | String c r => Some (c, r)
  end.

End UrlDecode.

(** [params.get(name)]: the value of the first pair called [name]. *)
Fixpoint param_get (name : string) (params : list (string * string))
  : option string :=
  match params with
  | [] => None
  | (n, v) :: params' => if decide (n = name) then Some v else param_get name params'
  end.

(** What [if (value) params.append(name, value)] leaves to be read. *)
Definition present (value : string) : option string :=
  if truthy value then Some value else None.

(** The parameter that [if (value) params.append(name, value)] adds. *)
Definition entry (name value : string) : list (string * string) :=
  match present value with
  | Some v => [(name, v)]
  | None => []
  end.

(** The sort token of a query, if it has one. *)
Definition sort_token (q : Query) : option string :=
  if decide (sortBy q = "recent") then Some "DD"
  else if decide (sortBy q = "relevant") then Some "R" else None.

Definition sort_entries (q : Query) : list (string * string) :=
  match sort_token q with
  | Some token => [("sortBy", token)]
  | None => []
  end.

(** The characters that [UrlEncoded.encode] never produces and that the
    address uses as separators. *)
Definition separator (c : ascii) : bool :=
  if decide (c = "&"%char) then true
  else if decide (c = "="%char) then true
  else if decide (c = "?"%char) then true
  else false.

Definition plain (c : ascii) : bool := negb (separator c).

Definition not_question (c : ascii) : bool :=
  if decide (c = "?"%char) then false else true.

(** The part of [s] after its last [c] (all of [s] when there is none). *)
Fixpoint after_last (c : ascii) (s : string) : string :=
  match s with
  | EmptyString => EmptyString
  | String a s' =>
      if contains c s' then after_last c s'
      else if decide (a = c) then s' else s
  end.

Fixpoint all_chars (P : ascii → bool) (s : string) : bool :=
  match s with
  | EmptyString => true
  | String c s' => P c && all_chars P s'
  end.

Definition nonspace (c : ascii) : bool := negb (is_space c).





(** The Record Extractor in the words of the specification: the candidate
    items that can be read and have a position and a company, in page
    order, each with its defaults filled in. *)
Module ExtractorSpec.

Definition has_position_and_company (job : li_card) : bool :=
  truthy (trim (title_text job)) && truthy (trim (subtitle_text job)).

Definition text_or (s d : string) : string :=
  if decide (s = "") then d else s.

Definition record_of (job : li_card) : JobData.t :=
  {| JobData.position := trim (title_text job);
     JobData.company := trim (subtitle_text job);
     JobData.location := trim (location_text job);
     JobData.date := time_datetime job;
     JobData.salary :=
       text_or (replace_ws " " (trim (salary_text job))) "Not specified";
     JobData.jobUrl := default "" (link_href job);
     JobData.companyLogo := default "" (logo_delayed_url job);
     JobData.agoTime := trim (listdate_text job) |}.

Definition readable (elements : list (option li_card)) : list li_card :=
  omap id elements.

Definition extract (page : option (list (option li_card))) : list JobData.t :=
  match page with
  | None => []
  | Some elements =>
      record_of <$> filter (λ job, has_position_and_company job = true)
                           (readable elements)
  end.

End ExtractorSpec.

(** The cache key says everything about a query but its [limit] and the
    spelling of its filters: what it says is this summary. *)
Definition key_content (q : Query)
  : string * string * string * (string * string * string * string * string)
    * Z * option string :=
  (host q, keyword q, location q,
   (getDateSincePosted q, getSalary q, getExperienceLevel q,
    getRemoteFilter q, getJobType q),
   page q, sort_token q).

(** Concrete runs. *)
Module Sample.

Definition engineer : JobData.t :=
  {| JobData.position := "Engineer"; JobData.company := "Acme";
     JobData.location := "London"; JobData.date := None;
     JobData.salary := "Not specified"; JobData.jobUrl := "";
     JobData.companyLogo := ""; JobData.agoTime := "" |}.

Definition analyst : JobData.t :=
  {| JobData.position := "Analyst"; JobData.company := "Acme";
     JobData.location := "London"; JobData.date := None;
     JobData.salary := "Not specified"; JobData.jobUrl := "";
     JobData.companyLogo := ""; JobData.agoTime := "" |}.

Definition designer : JobData.t :=
  {| JobData.position := "Designer"; JobData.company := "Acme";
     JobData.location := "London"; JobData.date := None;
     JobData.salary := "Not specified"; JobData.jobUrl := "";
     JobData.companyLogo := ""; JobData.agoTime := "" |}.

Definition card (title subtitle : string) : li_card :=
  {| title_text := title; subtitle_text := subtitle;
     location_text := " London "; time_datetime := None;
     salary_text := ""; link_href := None; logo_delayed_url := None;
     listdate_text := "" |}.

(** The markup reader: the page ["one"] holds one card, ["three"] holds
    three, ["broken"] cannot be parsed, every other page has no [li]. *)
Definition cheerio_li (body : string) : option (list (option li_card)) :=
  if decide (body = "one") then Some [Some (card "Engineer" "Acme")]
  else if decide (body = "three")
  then Some [Some (card "Engineer" "Acme"); Some (card "Analyst" "Acme");
             Some (card "Designer" "Acme")]
  else if decide (body = "broken") then None
  else Some [].

(** A network that is down. *)
Definition offline (n : nat) (target : string) : http_result := NoResponse.

(** A network that answers the first request with page ["one"] and then
    throttles. *)
Definition one_then_throttled (n : nat) (target : string) : http_result :=
  match n with
  | O => Response 200 "one"
  | _ => Response 429 ""
  end.

(** A network that always answers with page ["three"]. *)
Definition always_three (n : nat) (target : string) : http_result :=
  Response 200 "three".

(** A network that answers with page ["three"] twice and then with an
    empty page. *)
Definition three_three_empty (n : nat) (target : string) : http_result :=
  match n with
  | O | S O => Response 200 "three"
  | _ => Response 200 ""
  end.

Definition no_jitter (n : nat) : Z := 0.

(** Every request takes 120 ms. *)
Definition latency (n : nat) : Z := 120.

Definition fresh : world :=
  {| cache := ∅; clock := 0; requests := 0; trace := [] |}.

Definition london (lim : option jsnum) : Query :=
  Query_new (QueryObject.mk None (Some "software  engineer")
               (Some " London ") None None None None None None lim None).

(** Two spellings of one search, page 2, with different limits. *)
Definition full_time_a : Query :=
  Query_new (QueryObject.mk None (Some "software  engineer")
               (Some " London ") None (Some "Full-Time") None None None None
               (Some (Int 10)) (Some (Int 2))).

Definition full_time_b : Query :=
  Query_new (QueryObject.mk None (Some " software engineer")
               (Some "London") None (Some "full time") None None None None
               (Some (Int 20)) (Some (Int 2))).

End Sample.

(* ------------------------------------------------------------------ *)
(** ** The tool handler *)

(** The [query] argument of a tool call, as the protocol layer hands it
    over: absent, a string, or a value of another type. *)
Inductive jsvalue :=
  | JString (s : string)
  | JOther.

Inductive tool_result :=
  | ToolText (text : string)        (* [content: [{ type: "text", text }]] *)
  | ToolError (message : string).   (* [throw new Error(message)] *)

Section Tool.

Variable cheerio_li : string → option (list (option li_card)).
Variable axios_get : nat → string → http_result.
Variable random_ms : nat → Z.
Variable axios_ms : nat → Z.

(** [JSON.stringify(jobs, null, 2)] *)
Variable stringify : list JobData.t → string.

(** The query object the handler builds from the text of the call. *)
Definition tool_query (query : string) : QueryObject.t :=
  QueryObject.mk None (Some query) (Some "London") None None None None None
    None (Some (Int 10)) None.

(** The handler of [CallToolRequestSchema]. *)
Definition call_tool (fuel : nat) (name : string) (query : option jsvalue)
    (w : world) : option (tool_result * world) :=
  if decide (name = "chat_linkedin_jobs") then
    match query with
    | Some (JString query) =>
        if truthy query then
          let queryInstance := Query_new (tool_query query) in
          match getJobs cheerio_li axios_get random_ms axios_ms fuel
                  queryInstance w with
          | None => None
          | Some (Returned jobs, w) => Some (ToolText (stringify jobs), w)
          | Some (Thrown _, w) => Some (ToolError "Failed to fetch jobs", w)
          end
        else Some (ToolError "Query is required and must be a string", w)
    | _ => Some (ToolError "Query is required and must be a string", w)
    end
  else Some (ToolError "Unknown tool", w).

End Tool.

(* ------------------------------------------------------------------ *)
(** ** Further auxiliary definitions *)

(** What a run of the loop accumulates, read off the requests it made: the
    records a response contributes (those parsed from the body of a 200,
    none otherwise), and those of the responses to the requests of a trace,
    in the order of the requests, the first of them being request [n]. *)
Section Accumulated.

Variable cheerio_li : string → option (list (option li_card)).
Variable axios_get : nat → string → http_result.

Definition response_jobs (r : http_result) : list JobData.t :=
  match r with
  | Response status body =>
      if status =? 200 then parseJobList cheerio_li body else []
  | NoResponse => []
  end.

Fixpoint trace_jobs (n : nat) (events : list event) : list JobData.t :=
  match events with
  | [] => []
  | Request target :: events' =>
      response_jobs (axios_get n target) ++ trace_jobs (S n) events'
  | Sleep _ :: events' => trace_jobs n events'
  end.

End Accumulated.

(** A record with a position and a company. *)
Definition valid_job (job : JobData.t) : bool :=
  truthy (JobData.position job) && truthy (JobData.company job).

(** What the handler keeps true of the cache: no entry holds more than ten
    records, and every record held has a position and a company. *)
Definition tool_cache (c : gmap string cache_item) : Prop :=
  map_Forall (λ _ item,
    (List.length (data item) ≤ 10)%nat
    ∧ Forall (λ job, valid_job job = true) (data item)) c.

(** The trace of a run of the loop: some turns that go on, each a request
    for an offset followed by a wait, then the request of the last turn. *)
Definition turns_trace (q : Query) (turns : list (Z * Z)) (last : Z)
  : list event :=
  flat_map (λ turn, [Request (url q turn.1); Sleep turn.2]) turns
  ++ [Request (url q last)].

(** The sum of the waits of some turns. *)
Definition turns_wait (turns : list (Z * Z)) : Z :=
  foldr (λ turn total, turn.2 + total) 0 turns.

(** A query with its four case-insensitive filters spelled in lower case. *)
Definition lower_filters (q : Query) : Query :=
  {| host := host q; keyword := keyword q; location := location q;
     dateSincePosted := toLowerCase (dateSincePosted q);
     jobType := toLowerCase (jobType q);
     remoteFilter := toLowerCase (remoteFilter q);
     salary := salary q;
     experienceLevel := toLowerCase (experienceLevel q);
     sortBy := sortBy q; limit := limit q; page := page q |}.

(** The characters a serialized parameter list is made of: the ones the
    serializer leaves alone, and [+], [%], [=] and [&]. *)
Definition query_char (c : ascii) : bool :=
  UrlEncoded.unreserved c
  || bool_decide (c ∈ ["+"; "%"; "="; "&"]%char).

(** Concrete runs of the handler. *)
Module SampleTool.

Definition stringify (jobs : list JobData.t) : string :=
  pretty (List.length jobs).

(** A network that answers every request with a page of one record. *)
Definition always_one (n : nat) (target : string) : http_result :=
  Response 200 "one".

End SampleTool.

(** [String.append] does not unfold under [simpl]: its two equations. *)
Ltac unfold_append :=
  repeat (change (String.append EmptyString ?t) with t
          || change (String.append (String ?c ?s) ?t)
               with (String c (String.append s t))).

Ltac unfold_append_in H :=
  repeat (change (String.append EmptyString ?t) with t in H
          || change (String.append (String ?c ?s) ?t)
               with (String c (String.append s t)) in H).

Tactic Notation "str_simpl" := unfold_append; simpl; unfold_append.
Tactic Notation "str_simpl" "in" hyp(H) :=
  unfold_append_in H; simpl in H; unfold_append_in H.

(* ------------------------------------------------------------------ *)
(** * Properties *)

(** ** The cache *)

Lemma JobCache_get_fresh now t key value (cache : gmap string cache_item) :
  now - t ≤ TTL →
  JobCache_get now key (JobCache_set t key value cache)
  = (Some value, JobCache_set t key value cache).
Proof.
  intros Hage. unfold JobCache_get, JobCache_set.
  rewrite lookup_insert_eq. simpl.
  destruct (Z.ltb_spec TTL (now - t)); [lia | done].
Qed.

Lemma JobCache_get_expired now t key value (cache : gmap string cache_item) :
  TTL < now - t →
  JobCache_get now key (JobCache_set t key value cache)
  = (None, delete key cache).
Proof.
  intros Hage. unfold JobCache_get, JobCache_set.
  rewrite lookup_insert_eq. simpl.
  destruct (Z.ltb_spec TTL (now - t)); [|lia].
  by rewrite delete_insert_eq.
Qed.

Lemma JobCache_clear_lookup now (cache : gmap string cache_item) key :
  JobCache_clear now cache !! key
  = match cache !! key with
    | Some item => if decide (TTL < now - timestamp item) then None else Some item
    | None => None
    end.
Proof.
  unfold JobCache_clear.
  destruct (cache !! key) as [item|] eqn:Hkey.
  - case_decide as Hage.
    + apply map_lookup_filter_None. right. intros item' Hitem'. simpl.
      rewrite Hkey in Hitem'. injection Hitem' as <-. tauto.
    + apply map_lookup_filter_Some. split; [done|]. simpl. done.
  - apply map_lookup_filter_None. left. done.
Qed.

(** C5. [get] right after [set], while the entry is no older than the TTL,
    gives back the very sequence stored and leaves the cache as it is; once
    the entry is older than the TTL, [get] gives [null] and deletes it; and
    [clear] deletes exactly the entries older than the TTL. *)
Theorem JobCache_get_set_clear
    (cache : gmap string cache_item) (key : string) (value : list JobData.t)
    (t now : Z) :
  (now - t ≤ TTL →
   JobCache_get now key (JobCache_set t key value cache)
   = (Some value, JobCache_set t key value cache))
  ∧ (TTL < now - t →
     JobCache_get now key (JobCache_set t key value cache)
     = (None, delete key cache))
  ∧ (∀ k item,
       JobCache_clear now cache !! k = Some item
       ↔ cache !! k = Some item ∧ now - timestamp item ≤ TTL).
Proof.
  split; [apply JobCache_get_fresh|].
  split; [apply JobCache_get_expired|].
  intros k item. rewrite JobCache_clear_lookup.
  destruct (cache !! k) as [item'|]; [|split; [done | by intros [? _]]].
  case_decide; split.
  - done.
  - intros [[= ->] ?]. lia.
  - intros [= ->]. split; [done | lia].
  - by intros [? _].
Qed.

Lemma JobCache_get_set_clear_witness :
  JobCache_get 3600000 "k" (JobCache_set 0 "k" [Sample.engineer] ∅)
  = (Some [Sample.engineer], JobCache_set 0 "k" [Sample.engineer] ∅)
  ∧ JobCache_get 3600001 "k" (JobCache_set 0 "k" [Sample.engineer] ∅)
    = (None, delete "k" ∅).
Proof.
  split.
  - apply (JobCache_get_set_clear ∅ "k" [Sample.engineer] 0 3600000).
    unfold TTL. lia.
  - apply (JobCache_get_set_clear ∅ "k" [Sample.engineer] 0 3600001).
    unfold TTL. lia.
Defined.

(** ** The record extractor *)

Lemma truthy_empty s : truthy s = false ↔ s = "".
Proof. destruct s; simpl; split; congruence. Qed.

Lemma or_else_text_or s d : or_else s d = ExtractorSpec.text_or s d.
Proof. unfold or_else, ExtractorSpec.text_or. by destruct s. Qed.

Lemma or_else_empty s : or_else s "" = s.
Proof. by destruct s. Qed.

Lemma str_or_default x : str_or x "" = default "" x.
Proof. destruct x as [s|]; simpl; [apply or_else_empty | done]. Qed.

Lemma parse_card_spec job :
  parse_card job
  = if ExtractorSpec.has_position_and_company job
    then Some (ExtractorSpec.record_of job) else None.
Proof.
  unfold parse_card, ExtractorSpec.has_position_and_company,
    ExtractorSpec.record_of.
  destruct (truthy (trim (title_text job))),
    (truthy (trim (subtitle_text job))); simpl; try done.
  by rewrite or_else_text_or, or_else_empty, !str_or_default.
Qed.

Lemma omap_parse_element elements :
  omap parse_element elements
  = ExtractorSpec.record_of
      <$> filter (λ job, ExtractorSpec.has_position_and_company job = true)
                 (ExtractorSpec.readable elements).
Proof.
  unfold ExtractorSpec.readable.
  induction elements as [|[job|] elements IH]; csimpl; [done| |done].
  rewrite parse_card_spec, filter_cons.
  destruct (ExtractorSpec.has_position_and_company job) eqn:Hjob.
  - rewrite decide_True by done. simpl. by rewrite IH.
  - rewrite decide_False by congruence. done.
Qed.

(** C6. [parseJobList] never fails: a page that cannot be parsed gives the
    empty sequence; otherwise the result is the specification's extraction
    (the readable items that have a position and a company, in page order,
    an item that throws dropped alone); and every returned record has a
    position and a company, the salary ["Not specified"] when the card has
    no salary text, and empty [jobUrl], [companyLogo] and [agoTime] when the
    card has none. *)
Theorem parseJobList_total
    (cheerio_li : string → option (list (option li_card))) (jobData : string) :
  parseJobList cheerio_li jobData = ExtractorSpec.extract (cheerio_li jobData)
  ∧ (cheerio_li jobData = None → parseJobList cheerio_li jobData = [])
  ∧ (∀ before after,
       cheerio_li jobData = Some (before ++ None :: after) →
       parseJobList cheerio_li jobData
       = omap parse_element before ++ omap parse_element after)
  ∧ (∀ r, r ∈ parseJobList cheerio_li jobData →
       ∃ elements job,
         cheerio_li jobData = Some elements ∧ Some job ∈ elements
         ∧ parse_card job = Some r
         ∧ JobData.position r ≠ "" ∧ JobData.company r ≠ ""
         ∧ (trim (salary_text job) = "" → JobData.salary r = "Not specified")
         ∧ (link_href job = None → JobData.jobUrl r = "")
         ∧ (logo_delayed_url job = None → JobData.companyLogo r = "")
         ∧ (trim (listdate_text job) = "" → JobData.agoTime r = "")).
Proof.
  unfold parseJobList, ExtractorSpec.extract.
  split; [|split; [|split]].
  - destruct (cheerio_li jobData); [apply omap_parse_element | done].
  - by intros ->.
  - intros before after ->. by rewrite omap_app.
  - intros r Hr. destruct (cheerio_li jobData) as [elements|];
      [|by apply elem_of_nil in Hr].
    apply list_elem_of_omap in Hr as ([job|] & Hin & Hjob); [|done].
    exists elements, job. simpl in Hjob.
    split; [done|]. split; [done|]. split; [done|].
    unfold parse_card in Hjob.
    destruct (truthy (trim (title_text job))) eqn:Hp; [|done].
    destruct (truthy (trim (subtitle_text job))) eqn:Hc; [|done].
    simpl in Hjob. injection Hjob as <-. simpl.
    split; [intros Heq; by rewrite Heq in Hp|].
    split; [intros Heq; by rewrite Heq in Hc|].
    split; [by intros ->|]. split; [by intros ->|].
    split; by intros ->.
Qed.

Lemma parseJobList_total_witness :
  parseJobList Sample.cheerio_li "broken" = []
  ∧ parseJobList Sample.cheerio_li "one" = [Sample.engineer].
Proof.
  split.
  - by apply (parseJobList_total Sample.cheerio_li "broken").
  - reflexivity.
Defined.

(** C7, as the code has it. An item that can be read is discarded exactly
    when it lacks a position or lacks a company (after trimming): one of the
    two missing is enough. *)
Theorem parse_card_discards_iff (job : li_card) :
  parse_card job = None
  ↔ trim (title_text job) = "" ∨ trim (subtitle_text job) = "".
Proof.
  rewrite parse_card_spec. unfold ExtractorSpec.has_position_and_company.
  rewrite <-!truthy_empty.
  destruct (truthy (trim (title_text job))),
    (truthy (trim (subtitle_text job))); simpl; intuition congruence.
Qed.

(** C7, as stated, fails: a card with the position ["Engineer"] and no
    company has one of the two and is discarded all the same. *)
Lemma parse_card_discards_position_only :
  ¬ (∀ job : li_card,
       parse_card job = None
       ↔ trim (title_text job) = "" ∧ trim (subtitle_text job) = "").
Proof.
  intros Hclaim.
  destruct (Hclaim (Sample.card "Engineer" "")) as [Hdrop _].
  by destruct (Hdrop eq_refl) as [Hposition _].
Qed.

(** ** Normalization of keyword and location *)

Section Whitespace.

Implicit Types (s w g rest : string) (b : bool).

Lemma app_empty_r s : s +:+ "" = s.
Proof. induction s as [|c s IH]; str_simpl; [done | by rewrite IH]. Qed.

Lemma app_assoc_str s1 s2 s3 : (s1 +:+ s2) +:+ s3 = s1 +:+ s2 +:+ s3.
Proof. induction s1 as [|c s1 IH]; str_simpl; [done | by rewrite IH]. Qed.

Lemma all_chars_app P s1 s2 :
  all_chars P (s1 +:+ s2) = all_chars P s1 && all_chars P s2.
Proof.
  induction s1 as [|c s1 IH]; str_simpl; [done|].
  by rewrite IH, andb_assoc.
Qed.





Lemma trimEnd_word w : all_chars nonspace w = true → trimEnd w = w.
Proof.
  induction w as [|c w IH]; str_simpl; [done|].
  intros [Hc Hw]%andb_true_iff. rewrite (IH Hw).
  apply negb_true_iff in Hc as ->. by destruct w.
Qed.










Lemma replace_ws_no_space b s :
  all_chars nonspace (replace_ws_go "+" b s) = true.
Proof.
  revert b. induction s as [|c s IH]; intros b; str_simpl; [done|].
  destruct (is_space c) eqn:Hc.
  - destruct b; simpl; by rewrite IH.
  - simpl. unfold nonspace at 1. by rewrite Hc, IH.
Qed.

End Whitespace.



(** ** The pagination loop *)

Section Loop.

Variable cheerio_li : string → option (list (option li_card)).
Variable axios_get : nat → string → http_result.
Variable random_ms : nat → Z.
Variable axios_ms : nat → Z.

Local Abbreviation fetch := (fetchJobBatch cheerio_li axios_get axios_ms).
Local Abbreviation sent := (send_request axios_ms).
Local Abbreviation body :=
  (loop_body cheerio_li axios_get random_ms axios_ms).
Local Abbreviation run :=
  (run_loop cheerio_li axios_get random_ms axios_ms).
Local Abbreviation jobs_of :=
  (getJobs cheerio_li axios_get random_ms axios_ms).

#[local] Arguments run_loop : simpl never.

Lemma fetchJobBatch_world q s w : (fetch q s w).2 = sent (url q s) w.
Proof.
  unfold fetchJobBatch. destruct (axios_get _ _) as [status data|]; [|done].
  by repeat case_match.
Qed.

Lemma loop_body_failure q st w e w1 :
  fetch q (start st) w = (Thrown e, w1) →
  body q st w
  = if MAX_CONSECUTIVE_ERRORS <=? consecutiveErrors st + 1
    then Break MaxErrors (allJobs st) w1
    else Continue {| allJobs := allJobs st; start := start st;
                     consecutiveErrors := consecutiveErrors st + 1 |}
                  (delay (2 ^ (consecutiveErrors st + 1) * 1000) w1).
Proof. intros Hfetch. unfold loop_body. by rewrite Hfetch. Qed.

Lemma loop_body_empty_page q st w w1 :
  fetch q (start st) w = (Returned [], w1) →
  body q st w = Break EmptyPage (allJobs st) w1.
Proof. intros Hfetch. unfold loop_body. by rewrite Hfetch. Qed.

Lemma loop_body_page q st w jobs w1 :
  fetch q (start st) w = (Returned jobs, w1) →
  jobs ≠ [] →
  body q st w
  = if negb (limit q =? 0)
       && (limit q <=? Z.of_nat (List.length (allJobs st ++ jobs)))
    then Break LimitReached (slice0 (allJobs st ++ jobs) (limit q)) w1
    else Continue {| allJobs := allJobs st ++ jobs;
                     start := start st + BATCH_SIZE;
                     consecutiveErrors := 0 |}
                  (delay (2000 + random_ms (requests w1)) w1).
Proof.
  intros Hfetch Hjobs. unfold loop_body. rewrite Hfetch.
  by destruct jobs.
Qed.

(** The three ways a turn can go. *)
Lemma loop_body_cases q st w :
  (∃ e w1, fetch q (start st) w = (Thrown e, w1))
  ∨ (∃ w1, fetch q (start st) w = (Returned [], w1))
  ∨ (∃ jobs w1, fetch q (start st) w = (Returned jobs, w1) ∧ jobs ≠ []).
Proof.
  destruct (fetch q (start st) w) as [[[|job jobs]|e] w1]; eauto 6.
Qed.

Lemma run_loop_step fuel q st w :
  run (S fuel) q st w
  = match body q st w with
    | Break why jobs w' => Some (why, jobs, w')
    | Continue st' w' => run fuel q st' w'
    end.
Proof. done. Qed.

Lemma fetch_failure q s w e :
  (fetch q s w).1 = Thrown e → fetch q s w = (Thrown e, sent (url q s) w).
Proof.
  intros Hfail. rewrite <-fetchJobBatch_world, <-Hfail.
  by destruct (fetch q s w).
Qed.

Lemma loop_body_all_fail q st w :
  (∀ s w0, ∃ e, (fetch q s w0).1 = Thrown e) →
  body q st w
  = if MAX_CONSECUTIVE_ERRORS <=? consecutiveErrors st + 1
    then Break MaxErrors (allJobs st) (sent (url q (start st)) w)
    else Continue {| allJobs := allJobs st; start := start st;
                     consecutiveErrors := consecutiveErrors st + 1 |}
                  (delay (2 ^ (consecutiveErrors st + 1) * 1000)
                         (sent (url q (start st)) w)).
Proof.
  intros Hfail. destruct (Hfail (start st) w) as [e Hfetch%fetch_failure].
  by apply loop_body_failure with e.
Qed.

Lemma run_loop_all_fail q w fuel :
  (∀ s w0, ∃ e, (fetch q s w0).1 = Thrown e) →
  run (S (S (S fuel))) q loop_init w
  = Some (MaxErrors, [],
          sent (url q 0)
            (delay 4000 (sent (url q 0)
               (delay 2000 (sent (url q 0) w))))).
Proof.
  intros Hfail.
  rewrite run_loop_step, loop_body_all_fail by done. simpl.
  rewrite run_loop_step, loop_body_all_fail by done. simpl.
  by rewrite run_loop_step, loop_body_all_fail by done.
Qed.

Lemma run_loop_all_fail_short q w fuel :
  (∀ s w0, ∃ e, (fetch q s w0).1 = Thrown e) →
  (fuel < 3)%nat → run fuel q loop_init w = None.
Proof.
  intros Hfail Hfuel.
  destruct fuel as [|fuel]; [done|].
  rewrite run_loop_step, loop_body_all_fail by done. simpl.
  destruct fuel as [|fuel]; [done|].
  rewrite run_loop_step, loop_body_all_fail by done. simpl.
  destruct fuel as [|fuel]; [done | lia].
Qed.

(** C1. A failed fetch adds one to the consecutive-error counter; at 3 the
    loop stops with what it has, below 3 it waits [2^errors] seconds and
    goes on with the same offset and the same records.  A successful fetch
    after which the loop goes on puts the counter back to zero.  So when
    every fetch fails and the cache has nothing for the query, [getJobs]
    returns the empty sequence (a return, not a throw) after exactly three
    requests for offset 0, with waits of 2 and 4 seconds between them, and
    stores nothing in the cache; fewer than three turns do not end the
    loop. *)
Theorem getJobs_gives_up_after_three_failures (q : Query) :
  (∀ st w e w1,
     fetch q (start st) w = (Thrown e, w1) →
     body q st w
     = if 3 <=? consecutiveErrors st + 1
       then Break MaxErrors (allJobs st) w1
       else Continue {| allJobs := allJobs st; start := start st;
                        consecutiveErrors := consecutiveErrors st + 1 |}
                     (delay (2 ^ (consecutiveErrors st + 1) * 1000) w1))
  ∧ (∀ st w jobs w1 st' w',
       fetch q (start st) w = (Returned jobs, w1) →
       body q st w = Continue st' w' →
       consecutiveErrors st' = 0)
  ∧ ((∀ s w0, ∃ e, (fetch q s w0).1 = Thrown e) →
     ∀ w, (cache_get (url q 0) w).1 = None →
       (∀ fuel, (3 ≤ fuel)%nat →
          ∃ w', jobs_of fuel q w = Some (Returned [], w')
                ∧ trace w' = trace w ++ [Request (url q 0); Sleep 2000;
                                         Request (url q 0); Sleep 4000;
                                         Request (url q 0)]
                ∧ requests w' = (requests w + 3)%nat
                ∧ cache w' = cache (cache_get (url q 0) w).2)
       ∧ (∀ fuel, (fuel < 3)%nat → jobs_of fuel q w = None)).
Proof.
  split; [|split].
  - intros st w e w1 Hfetch. exact (loop_body_failure q st w e w1 Hfetch).
  - intros st w jobs w1 st' w' Hfetch Hbody.
    destruct jobs as [|job jobs].
    + by rewrite (loop_body_empty_page _ _ _ _ Hfetch) in Hbody.
    + rewrite (loop_body_page _ _ _ _ _ Hfetch) in Hbody by done.
      case_match; [done|]. by injection Hbody as <- _.
  - intros Hfail w Hmiss. unfold getJobs.
    destruct (cache_get (url q 0) w) as [cached w0] eqn:Hget.
    simpl in Hmiss. subst cached.
    assert (trace w0 = trace w ∧ requests w0 = requests w) as [Htr Hreq].
    { unfold cache_get in Hget. destruct (JobCache_get _ _ _).
      by injection Hget as _ <-. }
    split.
    + intros fuel Hfuel.
      destruct fuel as [|[|[|fuel]]]; [lia..|].
      rewrite run_loop_all_fail by done. simpl.
      eexists. split; [done|]. simpl.
      rewrite Htr, Hreq, <-!(assoc_L (++)). simpl.
      repeat split; lia.
    + intros fuel Hfuel. by rewrite run_loop_all_fail_short.
Qed.

Lemma slice0_take {A} (l : list A) (e : Z) :
  0 ≤ e → slice0 l e = take (Z.to_nat e) l.
Proof. intros He. unfold slice0. by destruct (Z.ltb_spec e 0); [lia|]. Qed.

Lemma loop_body_limit q st w jobs w1 :
  0 < limit q →
  fetch q (start st) w = (Returned jobs, w1) →
  jobs ≠ [] →
  limit q ≤ Z.of_nat (List.length (allJobs st ++ jobs)) →
  body q st w
  = Break LimitReached (take (Z.to_nat (limit q)) (allJobs st ++ jobs)) w1.
Proof.
  intros Hlimit Hfetch Hjobs Hreached.
  rewrite (loop_body_page _ _ _ _ _ Hfetch Hjobs).
  destruct (Z.eqb_spec (limit q) 0); [lia|].
  destruct (Z.leb_spec (limit q) (Z.of_nat (List.length (allJobs st ++ jobs))));
    [|lia].
  simpl. by rewrite slice0_take by lia.
Qed.

Lemma run_loop_limit q fuel st w why jobs w' :
  0 < limit q →
  Z.of_nat (List.length (allJobs st)) < limit q →
  run fuel q st w = Some (why, jobs, w') →
  match why with
  | LimitReached => Z.of_nat (List.length jobs) = limit q
  | EmptyPage | MaxErrors => Z.of_nat (List.length jobs) < limit q
  end.
Proof.
  intros Hlimit. revert st w.
  induction fuel as [|fuel IH]; intros st w Hbelow Hrun; [done|].
  rewrite run_loop_step in Hrun.
  destruct (loop_body_cases q st w)
    as [(e & w1 & Hfetch)|[(w1 & Hfetch)|(page & w1 & Hfetch & Hpage)]].
  - rewrite (loop_body_failure _ _ _ _ _ Hfetch) in Hrun.
    destruct (MAX_CONSECUTIVE_ERRORS <=? consecutiveErrors st + 1).
    + by injection Hrun as <- <- _.
    + eapply IH; [|exact Hrun]. done.
  - rewrite (loop_body_empty_page _ _ _ _ Hfetch) in Hrun.
    by injection Hrun as <- <- _.
  - rewrite (loop_body_page _ _ _ _ _ Hfetch Hpage) in Hrun.
    destruct (Z.eqb_spec (limit q) 0); [lia|].
    destruct (Z.leb_spec (limit q)
                (Z.of_nat (List.length (allJobs st ++ page)))); simpl in Hrun.
    + injection Hrun as <- <- _. rewrite slice0_take, length_take by lia. lia.
    + eapply IH; [|exact Hrun]. simpl. lia.
Qed.

Lemma fetch_response_jobs q o w r w1 :
  fetch q o w = (r, w1) →
  response_jobs cheerio_li (axios_get (requests w) (url q o))
  = match r with Returned jobs => jobs | Thrown _ => [] end.
Proof.
  unfold fetchJobBatch, response_jobs.
  destruct (axios_get _ _) as [status data|]; [|by intros [= <- _]].
  destruct (status =? 200); [by intros [= <- _]|].
  destruct (status =? 429); by intros [= <- _].
Qed.

Lemma run_loop_accumulates q fuel st w why jobs w' :
  run fuel q st w = Some (why, jobs, w') →
  ∃ added,
    trace w' = trace w ++ added
    ∧ jobs = match why with
             | LimitReached =>
                 slice0 (allJobs st
                         ++ trace_jobs cheerio_li axios_get (requests w) added)
                        (limit q)
             | EmptyPage | MaxErrors =>
                 allJobs st
                 ++ trace_jobs cheerio_li axios_get (requests w) added
             end.
Proof.
  revert st w. induction fuel as [|fuel IH]; intros st w; [done|].
  rewrite run_loop_step.
  pose proof (fetchJobBatch_world q (start st) w) as Hw.
  destruct (loop_body_cases q st w)
    as [(e & w1 & Hfetch)|[(w1 & Hfetch)|(page & w1 & Hfetch & Hpage)]];
    pose proof (fetch_response_jobs _ _ _ _ _ Hfetch) as Hpages;
    rewrite Hfetch in Hw; simpl in Hw, Hpages; subst w1.
  - rewrite (loop_body_failure _ _ _ _ _ Hfetch).
    destruct (_ <=? _).
    + intros [= <- <- <-]. exists [Request (url q (start st))].
      split; [done|]. simpl. rewrite Hpages. simpl. by rewrite ?app_nil_r.
    + intros (added & Htrace & Hjobs)%IH. simpl in *.
      exists (Request (url q (start st))
              :: Sleep (2 ^ (consecutiveErrors st + 1) * 1000) :: added).
      split; [by rewrite Htrace, <-!(assoc_L (++))|].
      simpl. rewrite Hpages. simpl. exact Hjobs.
  - rewrite (loop_body_empty_page _ _ _ _ Hfetch).
    intros [= <- <- <-]. exists [Request (url q (start st))].
    split; [done|]. simpl. rewrite Hpages. simpl. by rewrite ?app_nil_r.
  - rewrite (loop_body_page _ _ _ _ _ Hfetch Hpage).
    destruct (_ && _).
    + intros [= <- <- <-]. exists [Request (url q (start st))].
      split; [done|]. simpl. rewrite Hpages. simpl. by rewrite ?app_nil_r.
    + intros (added & Htrace & Hjobs)%IH. simpl in *.
      exists (Request (url q (start st))
              :: Sleep (2000 + random_ms (S (requests w))) :: added).
      split; [by rewrite Htrace, <-!(assoc_L (++))|].
      simpl. rewrite Hpages. by rewrite <-!(assoc_L (++)) in Hjobs.
Qed.

(** C2, as the code has it. With a limit [L > 0], the turn in which the
    accumulated records reach or exceed [L] ends the loop with exactly the
    first [L] of them, in accumulation order.  The loop ends in three ways:
    on an empty page and on the third consecutive failure it returns all
    that was accumulated, fewer than [L] records; on the limit it returns
    exactly [L].  What was accumulated is what the network gave: the
    records parsed from the successful responses to the requests of the
    run, in the order of the requests; the result is all of them on an
    empty page and on the third failure, and their first [L] on the
    limit. *)
Theorem getJobs_truncates_at_limit (q : Query) :
  0 < limit q →
  (∀ st w jobs w1,
     fetch q (start st) w = (Returned jobs, w1) →
     jobs ≠ [] →
     limit q ≤ Z.of_nat (List.length (allJobs st ++ jobs)) →
     body q st w
     = Break LimitReached (take (Z.to_nat (limit q)) (allJobs st ++ jobs)) w1
     ∧ Z.of_nat (List.length (take (Z.to_nat (limit q)) (allJobs st ++ jobs)))
       = limit q)
  ∧ (∀ fuel w why jobs w',
       run fuel q loop_init w = Some (why, jobs, w') →
       match why with
       | LimitReached => Z.of_nat (List.length jobs) = limit q
       | EmptyPage | MaxErrors => Z.of_nat (List.length jobs) < limit q
       end)
  ∧ (∀ fuel w why jobs w',
       run fuel q loop_init w = Some (why, jobs, w') →
       ∃ added,
         trace w' = trace w ++ added
         ∧ jobs = match why with
                  | LimitReached =>
                      take (Z.to_nat (limit q))
                        (trace_jobs cheerio_li axios_get (requests w) added)
                  | EmptyPage | MaxErrors =>
                      trace_jobs cheerio_li axios_get (requests w) added
                  end).
Proof.
  intros Hlimit. split; [|split].
  - intros st w jobs w1 Hfetch Hjobs Hreached.
    split; [by apply loop_body_limit|]. rewrite length_take. lia.
  - intros fuel w why jobs w' Hrun.
    apply (run_loop_limit q fuel loop_init w why jobs w' Hlimit); [|done].
    simpl. lia.
  - intros fuel w why jobs w' Hrun.
    apply run_loop_accumulates in Hrun as (added & Htrace & Hjobs).
    exists added. split; [done|]. simpl in Hjobs.
    destruct why; try done. by rewrite slice0_take in Hjobs by lia.
Qed.

Lemma loop_body_no_limit q st w jobs w1 :
  limit q = 0 →
  fetch q (start st) w = (Returned jobs, w1) →
  jobs ≠ [] →
  body q st w
  = Continue {| allJobs := allJobs st ++ jobs;
                start := start st + BATCH_SIZE;
                consecutiveErrors := 0 |}
             (delay (2000 + random_ms (requests w1)) w1).
Proof.
  intros Hlimit Hfetch Hjobs.
  rewrite (loop_body_page _ _ _ _ _ Hfetch Hjobs). by rewrite Hlimit.
Qed.

Lemma run_loop_no_limit q fuel st w why jobs w' :
  limit q = 0 →
  run fuel q st w = Some (why, jobs, w') →
  (why = EmptyPage ∨ why = MaxErrors) ∧ allJobs st `prefix_of` jobs.
Proof.
  intros Hlimit. revert st w.
  induction fuel as [|fuel IH]; intros st w Hrun; [done|].
  rewrite run_loop_step in Hrun.
  destruct (loop_body_cases q st w)
    as [(e & w1 & Hfetch)|[(w1 & Hfetch)|(page & w1 & Hfetch & Hpage)]].
  - rewrite (loop_body_failure _ _ _ _ _ Hfetch) in Hrun.
    destruct (MAX_CONSECUTIVE_ERRORS <=? consecutiveErrors st + 1).
    + injection Hrun as <- <- _. auto.
    + by apply IH in Hrun.
  - rewrite (loop_body_empty_page _ _ _ _ Hfetch) in Hrun.
    injection Hrun as <- <- _. auto.
  - rewrite (loop_body_no_limit _ _ _ _ _ Hlimit Hfetch Hpage) in Hrun.
    apply IH in Hrun as [Hwhy Hprefix]. split; [done|].
    etrans; [|exact Hprefix]. by apply prefix_app_r.
Qed.

(** C10. A query built with the limit absent, zero or [NaN] has limit 0;
    with limit 0 a page that is not empty is always appended whole and the
    loop goes on to the next offset, so the loop ends on an empty page or
    on the third consecutive failure only, and what it returns still starts
    with everything accumulated before. *)
Theorem getJobs_without_limit :
  (∀ queryObj,
     QueryObject.limit queryObj = None
     ∨ QueryObject.limit queryObj = Some (Int 0)
     ∨ QueryObject.limit queryObj = Some NaN →
     limit (Query_new queryObj) = 0)
  ∧ (∀ q, limit q = 0 →
       (∀ st w jobs w1,
          fetch q (start st) w = (Returned jobs, w1) →
          jobs ≠ [] →
          body q st w
          = Continue {| allJobs := allJobs st ++ jobs;
                        start := start st + 25;
                        consecutiveErrors := 0 |}
                     (delay (2000 + random_ms (requests w1)) w1))
       ∧ (∀ fuel st w why jobs w',
            run fuel q st w = Some (why, jobs, w') →
            (why = EmptyPage ∨ why = MaxErrors)
            ∧ allJobs st `prefix_of` jobs)).
Proof.
  split.
  - intros queryObj [H|[H|H]]; simpl; by rewrite H.
  - intros q Hlimit. split.
    + intros st w jobs w1. by apply loop_body_no_limit.
    + intros fuel st w why jobs w'. by apply run_loop_no_limit.
Qed.

Lemma cache_get_hit key w item :
  cache w !! key = Some item →
  clock w - timestamp item ≤ TTL →
  cache_get key w = (Some (data item), w).
Proof.
  intros Hkey Hage. unfold cache_get, JobCache_get. rewrite Hkey.
  destruct (Z.ltb_spec TTL (clock w - timestamp item)); [lia|].
  by destruct w.
Qed.

Lemma getJobs_stores q fuel w jobs w1 :
  (cache_get (url q 0) w).1 = None →
  jobs_of fuel q w = Some (Returned jobs, w1) →
  jobs ≠ [] →
  cache w1 !! url q 0 = Some {| data := jobs; timestamp := clock w1 |}.
Proof.
  unfold getJobs. destruct (cache_get (url q 0) w) as [cached w0].
  simpl. intros -> Hrun Hjobs.
  destruct (run fuel q loop_init w0) as [[[why all] w2]|]; [|done].
  injection Hrun as -> <-.
  destruct jobs; [done|]. simpl.
  unfold JobCache_set. by rewrite lookup_insert_eq.
Qed.

(** C4. When the cache holds an entry for the key of the query that is no
    older than the TTL, [getJobs] returns the cached sequence at once,
    whatever the network would answer, and leaves the world as it was: no
    request is issued and the trace is unchanged.  Hence a query that was
    answered from the network with some records is, within the TTL of that
    answer, answered again with the same records and no request. *)
Theorem getJobs_cache_hit (q : Query) :
  (∀ fuel w item,
     cache w !! url q 0 = Some item →
     clock w - timestamp item ≤ TTL →
     jobs_of fuel q w = Some (Returned (data item), w))
  ∧ (∀ fuel w jobs w1 fuel2 w2,
       (cache_get (url q 0) w).1 = None →
       jobs_of fuel q w = Some (Returned jobs, w1) →
       jobs ≠ [] →
       cache w2 = cache w1 →
       clock w2 - clock w1 ≤ TTL →
       jobs_of fuel2 q w2 = Some (Returned jobs, w2)).
Proof.
  assert (∀ fuel w item,
            cache w !! url q 0 = Some item →
            clock w - timestamp item ≤ TTL →
            jobs_of fuel q w = Some (Returned (data item), w)) as Hhit.
  { intros fuel w item Hkey Hage. unfold getJobs.
    by rewrite (cache_get_hit _ _ _ Hkey Hage). }
  split; [exact Hhit|].
  intros fuel w jobs w1 fuel2 w2 Hmiss Hrun Hjobs Hcache Hage.
  pose proof (getJobs_stores _ _ _ _ _ Hmiss Hrun Hjobs) as Hstored.
  rewrite <-Hcache in Hstored.
  by apply (Hhit fuel2) in Hstored.
Qed.

End Loop.

Lemma getJobs_gives_up_after_three_failures_witness :
  ∃ w', getJobs Sample.cheerio_li Sample.offline
    Sample.no_jitter Sample.latency 3
          (Sample.london (Some (Int 10))) Sample.fresh
        = Some (Returned [], w')
        ∧ trace w'
          = trace Sample.fresh
            ++ [Request (url (Sample.london (Some (Int 10))) 0); Sleep 2000;
                Request (url (Sample.london (Some (Int 10))) 0); Sleep 4000;
                Request (url (Sample.london (Some (Int 10))) 0)]
        ∧ requests w' = (requests Sample.fresh + 3)%nat
        ∧ cache w'
          = cache (cache_get (url (Sample.london (Some (Int 10))) 0)
                     Sample.fresh).2.
Proof.
  apply (getJobs_gives_up_after_three_failures Sample.cheerio_li
           Sample.offline
             Sample.no_jitter Sample.latency (Sample.london (Some (Int 10)))).
  - intros s w0. by exists (AxiosError None).
  - reflexivity.
  - lia.
Defined.

(** C2, as stated, fails in its last part: with limit 10, a first page of
    one record followed by three throttled requests ends the loop on the
    error threshold, with one record returned as a success; that stop is
    neither the truncation nor an empty page. *)
Lemma getJobs_partial_results_on_errors :
  ¬ (∀ why jobs w',
       run_loop Sample.cheerio_li Sample.one_then_throttled
         Sample.no_jitter Sample.latency
         4 (Sample.london (Some (Int 10))) loop_init Sample.fresh
       = Some (why, jobs, w') →
       why = LimitReached ∨ why = EmptyPage).
Proof.
  intros Hclaim.
  by destruct (Hclaim MaxErrors [Sample.engineer] _ eq_refl).
Qed.

Lemma getJobs_truncates_at_limit_witness :
  Z.of_nat (List.length [Sample.engineer; Sample.analyst; Sample.designer;
                         Sample.engineer; Sample.analyst])
  = limit (Sample.london (Some (Int 5))).
Proof.
  assert (0 < limit (Sample.london (Some (Int 5)))) as Hlimit by done.
  exact (proj1 (proj2 (getJobs_truncates_at_limit Sample.cheerio_li
                         Sample.always_three Sample.no_jitter Sample.latency
                         (Sample.london (Some (Int 5))) Hlimit))
           2%nat Sample.fresh LimitReached _ _ eq_refl).
Defined.

Lemma getJobs_without_limit_witness :
  limit (Sample.london None) = 0
  ∧ (EmptyPage = EmptyPage ∨ EmptyPage = MaxErrors)
  ∧ allJobs loop_init
    `prefix_of` [Sample.engineer; Sample.analyst; Sample.designer;
                 Sample.engineer; Sample.analyst; Sample.designer].
Proof.
  split.
  - apply (getJobs_without_limit Sample.cheerio_li Sample.three_three_empty
             Sample.no_jitter Sample.latency).
    by left.
  - exact (proj2 (proj2 (getJobs_without_limit Sample.cheerio_li
                           Sample.three_three_empty
                             Sample.no_jitter Sample.latency)
                    (Sample.london None) eq_refl)
             3%nat loop_init Sample.fresh EmptyPage _ _ eq_refl).
Defined.

Lemma getJobs_cache_hit_witness :
  getJobs Sample.cheerio_li Sample.always_three
    Sample.no_jitter Sample.latency 0
    (Sample.london (Some (Int 10)))
    (cache_set (url (Sample.london (Some (Int 10))) 0) [Sample.engineer]
       Sample.fresh)
  = Some (Returned [Sample.engineer],
          cache_set (url (Sample.london (Some (Int 10))) 0) [Sample.engineer]
            Sample.fresh).
Proof.
  apply (proj1 (getJobs_cache_hit Sample.cheerio_li Sample.always_three

                    Sample.no_jitter Sample.latency (Sample.london (Some (Int 10))))
           0%nat _ {| data := [Sample.engineer]; timestamp := 0 |}).
  - apply lookup_insert_eq.
  - simpl. unfold TTL. lia.
Defined.

(** ** The request address as cache key *)

Section Address.

Import UrlEncoded UrlDecode.
Implicit Types (s t : string) (c : ascii).

Lemma decode_encode_char c rest :
  decode_char (encode_char c rest) = Some (c, rest).
Proof. by destruct c as [[] [] [] [] [] [] [] []]. Qed.

Lemma encode_inj s1 s2 : encode s1 = encode s2 → s1 = s2.
Proof.
  revert s2. induction s1 as [|c1 s1 IH]; intros [|c2 s2] Heq; simpl in Heq.
  - done.
  - apply (f_equal decode_char) in Heq.
    by rewrite decode_encode_char in Heq.
  - apply (f_equal decode_char) in Heq.
    by rewrite decode_encode_char in Heq.
  - apply (f_equal decode_char) in Heq.
    rewrite !decode_encode_char in Heq.
    injection Heq as -> Heq. by rewrite (IH _ Heq).
Qed.

Lemma encode_char_plain c rest :
  all_chars plain rest = true → all_chars plain (encode_char c rest) = true.
Proof. by destruct c as [[] [] [] [] [] [] [] []]. Qed.

Lemma encode_plain s : all_chars plain (encode s) = true.
Proof.
  induction s as [|c s IH]; simpl; [done | by apply encode_char_plain].
Qed.

Lemma plain_contains c s :
  separator c = true → all_chars plain s = true → contains c s = false.
Proof.
  intros Hc. induction s as [|a s IH]; simpl; [done|].
  intros [Ha Hs]%andb_true_iff. case_decide as Hac; [|by apply IH].
  subst a. unfold plain in Ha. by rewrite Hc in Ha.
Qed.

Lemma contains_app c s t :
  contains c (s +:+ t) = contains c s || contains c t.
Proof.
  induction s as [|a s IH]; str_simpl; [done|]. by case_decide.
Qed.

(** Two strings cut at the first [d] of each agree part by part. *)
Lemma split_first d s1 t1 s2 t2 :
  contains d s1 = false → contains d s2 = false →
  s1 +:+ String d t1 = s2 +:+ String d t2 → s1 = s2 ∧ t1 = t2.
Proof.
  revert s2. induction s1 as [|a1 s1 IH]; intros [|a2 s2]; str_simpl.
  - intros _ _ [= ->]. done.
  - case_decide; [done|]. intros _ _ [= <-]. done.
  - case_decide; [done|]. intros _ _ [= ->]. done.
  - repeat case_decide; try done.
    intros H1 H2 [= -> Heq]. by destruct (IH _ H1 H2 Heq) as [-> ->].
Qed.

Lemma encode_pair_inj p1 p2 : encode_pair p1 = encode_pair p2 → p1 = p2.
Proof.
  destruct p1 as [n1 v1], p2 as [n2 v2]. unfold encode_pair. simpl.
  intros [Hn%encode_inj Hv%encode_inj]%split_first;
    [congruence|by apply plain_contains, encode_plain..].
Qed.

Lemma encode_pair_no_amp p : contains "&" (encode_pair p) = false.
Proof.
  unfold encode_pair. rewrite contains_app. str_simpl.
  rewrite !plain_contains by (done || apply encode_plain). done.
Qed.

Lemma encode_pair_nonempty p : encode_pair p ≠ "".
Proof. unfold encode_pair. by destruct (encode p.1). Qed.

Lemma serialize_cons p ps :
  serialize (p :: ps)
  = match ps with
    | [] => encode_pair p
    | _ => encode_pair p +:+ String "&" (serialize ps)
    end.
Proof. by destruct ps. Qed.

Lemma serialize_inj ps1 ps2 : serialize ps1 = serialize ps2 → ps1 = ps2.
Proof.
  revert ps2. induction ps1 as [|p1 ps1 IH]; intros [|p2 ps2].
  - done.
  - rewrite serialize_cons. simpl. intros Heq. exfalso.
    destruct ps2; [by eapply encode_pair_nonempty|].
    symmetry in Heq. by destruct (encode_pair p2).
  - rewrite serialize_cons. simpl. intros Heq. exfalso.
    destruct ps1; [by eapply encode_pair_nonempty|].
    by destruct (encode_pair p1).
  - rewrite !serialize_cons. intros Heq.
    destruct ps1 as [|q1 ps1], ps2 as [|q2 ps2].
    + by apply encode_pair_inj in Heq as ->.
    + exfalso. pose proof (encode_pair_no_amp p1) as Hamp.
      rewrite Heq, contains_app in Hamp. str_simpl in Hamp.
      by rewrite orb_true_r in Hamp.
    + exfalso. pose proof (encode_pair_no_amp p2) as Hamp.
      rewrite <-Heq, contains_app in Hamp. str_simpl in Hamp.
      by rewrite orb_true_r in Hamp.
    + apply split_first in Heq as [->%encode_pair_inj Heq];
        [|apply encode_pair_no_amp..].
      by rewrite (IH _ Heq).
Qed.

Lemma length_append s t :
  String.length (s +:+ t) = (String.length s + String.length t)%nat.
Proof. induction s as [|a s IH]; str_simpl; [done | by rewrite IH]. Qed.

Lemma append_inv_tail s1 s2 t : s1 +:+ t = s2 +:+ t → s1 = s2.
Proof.
  revert s2. induction s1 as [|a1 s1 IH]; intros [|a2 s2] Heq.
  - done.
  - apply (f_equal String.length) in Heq.
    rewrite !length_append in Heq. simpl in Heq. lia.
  - apply (f_equal String.length) in Heq.
    rewrite !length_append in Heq. simpl in Heq. lia.
  - str_simpl in Heq. injection Heq as -> Heq. by rewrite (IH _ Heq).
Qed.

Lemma after_last_app c s t :
  contains c t = false → after_last c (s +:+ String c t) = t.
Proof.
  intros Ht. induction s as [|a s IH]; str_simpl.
  - rewrite Ht. by rewrite decide_True.
  - rewrite contains_app. simpl. rewrite decide_True by done.
    by rewrite orb_true_r.
Qed.

Lemma contains_cons_ne a c s :
  a ≠ c → contains c (String a s) = contains c s.
Proof. intros Hne. simpl. by rewrite decide_False. Qed.

Lemma serialize_no_question ps : contains "?" (serialize ps) = false.
Proof.
  induction ps as [|p ps IH]; [done|].
  assert (contains "?" (encode_pair p) = false) as Hp.
  { unfold encode_pair. rewrite contains_app. str_simpl.
    rewrite !plain_contains by (done || apply encode_plain). done. }
  rewrite serialize_cons. destruct ps; [done|].
  rewrite contains_app, Hp, contains_cons_ne by done. by rewrite IH.
Qed.

(** An address gives back its host and its parameters. *)
Lemma url_inj q1 (o1 : Z) q2 (o2 : Z) :
  url q1 o1 = url q2 o2 →
  host q1 = host q2 ∧ url_params q1 o1 = url_params q2 o2.
Proof.
  unfold url. intros Heq%(inj (String.append "https://")).
  assert (∀ h ps,
    h +:+ "/jobs-guest/jobs/api/seeMoreJobPostings/search?" +:+ serialize ps
    = (h +:+ "/jobs-guest/jobs/api/seeMoreJobPostings/search")
      +:+ String "?" (serialize ps)) as Hcut.
  { intros h ps. by rewrite app_assoc_str. }
  pose proof Heq as Hparams.
  rewrite !Hcut in Hparams. apply (f_equal (after_last "?")) in Hparams.
  rewrite !after_last_app in Hparams by apply serialize_no_question.
  rewrite Hparams in Heq. apply append_inv_tail in Heq.
  split; [done | by apply serialize_inj].
Qed.

Lemma append_if_entry name value params :
  append_if name value params = params ++ entry name value.
Proof.
  unfold append_if, entry, present. destruct (truthy value); [done|].
  by rewrite app_nil_r.
Qed.

(** The parameters of an address, in the order they are appended. *)
Lemma url_params_entries q (o : Z) :
  url_params q o
  = entry "keywords" (keyword q) ++ entry "location" (location q)
    ++ entry "f_TPR" (getDateSincePosted q) ++ entry "f_SB2" (getSalary q)
    ++ entry "f_E" (getExperienceLevel q) ++ entry "f_WT" (getRemoteFilter q)
    ++ entry "f_JT" (getJobType q)
    ++ ("start", pretty (o + getPage q)) :: sort_entries q.
Proof.
  unfold url_params, sort_entries, sort_token. rewrite !append_if_entry.
  repeat case_decide; rewrite <-?(assoc_L (++)); done.
Qed.

Lemma param_get_entry name n v ps :
  param_get name (entry n v ++ ps)
  = if decide (n = name)
    then match present v with Some v' => Some v' | None => param_get name ps end
    else param_get name ps.
Proof.
  unfold entry. destruct (present v); simpl; by case_decide.
Qed.

Lemma param_get_tail name start q :
  name ≠ "start" → name ≠ "sortBy" →
  param_get name (("start", start) :: sort_entries q) = None.
Proof.
  intros H1 H2. unfold sort_entries. simpl.
  rewrite decide_False by done.
  destruct (sort_token q); simpl; [by rewrite decide_False|done].
Qed.

Lemma present_inj v1 v2 : present v1 = present v2 → v1 = v2.
Proof. unfold present. destruct v1, v2; simpl; congruence. Qed.

Ltac skip_entry := rewrite param_get_entry, decide_False by done.
Ltac take_entry :=
  rewrite param_get_entry, decide_True, ?param_get_tail by done;
  repeat skip_entry; rewrite ?param_get_tail by done;
  by destruct (present _).

(** What each parameter of the address reads as. *)
Lemma url_params_get q (o : Z) :
  param_get "keywords" (url_params q o) = present (keyword q)
  ∧ param_get "location" (url_params q o) = present (location q)
  ∧ param_get "f_TPR" (url_params q o) = present (getDateSincePosted q)
  ∧ param_get "f_SB2" (url_params q o) = present (getSalary q)
  ∧ param_get "f_E" (url_params q o) = present (getExperienceLevel q)
  ∧ param_get "f_WT" (url_params q o) = present (getRemoteFilter q)
  ∧ param_get "f_JT" (url_params q o) = present (getJobType q)
  ∧ param_get "start" (url_params q o) = Some (pretty (o + getPage q))
  ∧ param_get "sortBy" (url_params q o) = sort_token q.
Proof.
  rewrite url_params_entries.
  split; [take_entry|]. split; [skip_entry; take_entry|].
  split; [do 2 skip_entry; take_entry|].
  split; [do 3 skip_entry; take_entry|].
  split; [do 4 skip_entry; take_entry|].
  split; [do 5 skip_entry; take_entry|].
  split; [do 6 skip_entry; take_entry|].
  split.
  - do 7 skip_entry. simpl. by repeat case_decide.
  - do 7 skip_entry. unfold sort_entries. simpl. repeat case_decide; try done.
    destruct (sort_token q); simpl; by repeat case_decide.
Qed.

Lemma url_key_content q1 q2 :
  url q1 0 = url q2 0 → key_content q1 = key_content q2.
Proof.
  intros [Hhost Hparams]%url_inj.
  destruct (url_params_get q1 0)
    as (K1 & L1 & D1 & S1 & E1 & R1 & J1 & P1 & O1).
  destruct (url_params_get q2 0)
    as (K2 & L2 & D2 & S2 & E2 & R2 & J2 & P2 & O2).
  rewrite Hparams in K1, L1, D1, S1, E1, R1, J1, P1, O1.
  unfold key_content.
  rewrite Hhost.
  rewrite (present_inj _ _ (eq_trans (eq_sym K1) K2)).
  rewrite (present_inj _ _ (eq_trans (eq_sym L1) L2)).
  rewrite (present_inj _ _ (eq_trans (eq_sym D1) D2)).
  rewrite (present_inj _ _ (eq_trans (eq_sym S1) S2)).
  rewrite (present_inj _ _ (eq_trans (eq_sym E1) E2)).
  rewrite (present_inj _ _ (eq_trans (eq_sym R1) R2)).
  rewrite (present_inj _ _ (eq_trans (eq_sym J1) J2)).
  rewrite <-O1, O2.
  assert (page q1 = page q2) as ->; [|done].
  rewrite P1 in P2. injection P2 as P2%(inj pretty).
  unfold getPage in P2. lia.
Qed.

Lemma key_content_url q1 q2 (o : Z) :
  key_content q1 = key_content q2 → url q1 o = url q2 o.
Proof.
  unfold key_content. intros [= Hh Hk Hl Hd Hs He Hr Hj Hp Ho].
  unfold url. rewrite !url_params_entries. unfold sort_entries, getPage.
  by rewrite Hh, Hk, Hl, Hd, Hs, He, Hr, Hj, Hp, Ho.
Qed.

(** C3, as the code has it. The cache key says exactly this much of a
    query: its host, its normalized keyword and location, the token of each
    of its five filters, its page and its sort token.  Two queries whose
    page offsets are safe integers (so that the code computes and prints
    them exactly) have the same key exactly when they agree on all of
    these; the limit, and the spelling of a filter beyond its token, are not
    in the key. *)
Theorem cache_key_encodes_content (q1 q2 : Query) :
  exact_start q1 0 → exact_start q2 0 →
  url q1 0 = url q2 0 ↔ key_content q1 = key_content q2.
Proof.
  intros _ _. split; [apply url_key_content | apply key_content_url].
Qed.

End Address.

Lemma cache_key_encodes_content_witness :
  key_content Sample.full_time_a = key_content Sample.full_time_b.
Proof.
  apply (cache_key_encodes_content Sample.full_time_a Sample.full_time_b).
  - unfold exact_start, safe_integer, MAX_SAFE_INTEGER. simpl. lia.
  - unfold exact_start, safe_integer, MAX_SAFE_INTEGER. simpl. lia.
  - reflexivity.
Defined.

(** C3, as stated, fails: the same search with limit 10 and with limit 20
    are two different normalized queries with one cache key. *)
Lemma cache_key_ignores_limit :
  ¬ (∀ q1 q2 : Query, q1 ≠ q2 → url q1 0 ≠ url q2 0).
Proof.
  intros Hclaim.
  apply (Hclaim (Sample.london (Some (Int 10)))
                (Sample.london (Some (Int 20)))); [|reflexivity].
  intros Heq. by apply (f_equal limit) in Heq.
Qed.

(** ** Filters *)

Lemma get_or_empty_unknown (table : gmap string string) key :
  table !! key = None → JsObject.prototype_get key = None →
  JsObject.get_or_empty table key = "".
Proof.
  intros Hown Hproto. unfold JsObject.get_or_empty, JsObject.get.
  by rewrite Hown, Hproto.
Qed.

(** A filter value that is neither in its table nor the name of a property
    of [Object.prototype] adds no parameter; a sort order other than
    ["recent"] and ["relevant"] adds none either; and the four tables read
    through [toLowerCase] see the value in lower case only. *)
Lemma unknown_filter_omitted q (o : Z) :
  (dateRange !! toLowerCase (dateSincePosted q) = None →
   JsObject.prototype_get (toLowerCase (dateSincePosted q)) = None →
   param_get "f_TPR" (url_params q o) = None)
  ∧ (salaryRange !! salary q = None →
     JsObject.prototype_get (salary q) = None →
     param_get "f_SB2" (url_params q o) = None)
  ∧ (experienceRange !! toLowerCase (experienceLevel q) = None →
     JsObject.prototype_get (toLowerCase (experienceLevel q)) = None →
     param_get "f_E" (url_params q o) = None)
  ∧ (remoteFilterRange !! toLowerCase (remoteFilter q) = None →
     JsObject.prototype_get (toLowerCase (remoteFilter q)) = None →
     param_get "f_WT" (url_params q o) = None)
  ∧ (jobTypeRange !! toLowerCase (jobType q) = None →
     JsObject.prototype_get (toLowerCase (jobType q)) = None →
     param_get "f_JT" (url_params q o) = None)
  ∧ (sortBy q ≠ "recent" → sortBy q ≠ "relevant" →
     param_get "sortBy" (url_params q o) = None).
Proof.
  destruct (url_params_get q o) as (_ & _ & D & S & E & R & J & _ & O).
  rewrite D, S, E, R, J, O.
  unfold getDateSincePosted, getSalary, getExperienceLevel, getRemoteFilter,
    getJobType, sort_token.
  repeat split; intros H1 H2;
    rewrite ?get_or_empty_unknown by done; try done.
  by rewrite !decide_False.
Qed.

(** C8 fails on the code for a value that names an inherited property of
    the lookup table.  ["constructor"] is not in the date-posted table, yet
    [dateRange["constructor"]] is the function [Object], which is truthy,
    so the address gets an [f_TPR] parameter holding its text. *)
Theorem url_filter_inherited_property :
  dateRange !! toLowerCase "constructor" = None
  ∧ url (Query_new
           (QueryObject.mk None None None (Some "constructor") None None None
              None None None None)) 0
    = "https://www.linkedin.com/jobs-guest/jobs/api/seeMoreJobPostings/search?f_TPR=function+Object%28%29+%7B+%5Bnative+code%5D+%7D&start=0".
Proof. split; reflexivity. Qed.

(* ------------------------------------------------------------------ *)
(** * Further properties *)

(** ** More on the cache *)

(** X1. Reading one key after a write to another: the write does not
    change what is read, and the two operations commute. *)
Theorem JobCache_get_set_other
    (cache : gmap string cache_item) (k k' : string) (value : list JobData.t)
    (t now : Z) :
  k ≠ k' →
  JobCache_get now k' (JobCache_set t k value cache)
  = ((JobCache_get now k' cache).1,
     JobCache_set t k value (JobCache_get now k' cache).2).
Proof.
  intros Hne. unfold JobCache_get, JobCache_set.
  rewrite lookup_insert_ne by done.
  destruct (cache !! k') as [item|]; [|done].
  destruct (TTL <? now - timestamp item); [|done].
  simpl. by rewrite delete_insert_ne.
Qed.

Lemma JobCache_get_set_other_witness :
  JobCache_get 5 "b" (JobCache_set 0 "a" [Sample.engineer] ∅)
  = ((JobCache_get 5 "b" ∅).1,
     JobCache_set 0 "a" [Sample.engineer] (JobCache_get 5 "b" ∅).2).
Proof. by apply (JobCache_get_set_other ∅ "a" "b"). Defined.

Lemma JobCache_get_cases
    (cache cache' : gmap string cache_item) (key : string) (now : Z)
    (r : option (list JobData.t)) :
  JobCache_get now key cache = (r, cache') →
  match r with
  | Some value =>
      cache' = cache
      ∧ ∃ item, cache !! key = Some item ∧ data item = value
                ∧ now - timestamp item ≤ TTL
  | None =>
      cache' !! key = None ∧ ∀ k, k ≠ key → cache' !! k = cache !! k
  end.
Proof.
  unfold JobCache_get. destruct (cache !! key) as [item|] eqn:Hkey; [|by intros [= <- <-]].
  destruct (Z.ltb_spec TTL (now - timestamp item)); intros [= <- <-].
  - split; [apply lookup_delete_eq | intros k Hk; by apply lookup_delete_ne].
  - split; [done|]. exists item. split; [done|]. split; [done | lia].
Qed.

(** X2. [get] never hands out an expired entry and never touches another
    key: a sequence it returns is the data of an entry no older than the
    TTL, and the cache is left as it was; when it returns [null], the key
    is absent afterwards and every other key reads as before. *)
Theorem JobCache_get_sound
    (cache cache' : gmap string cache_item) (key : string) (now : Z)
    (r : option (list JobData.t)) :
  JobCache_get now key cache = (r, cache') →
  match r with
  | Some value =>
      cache' = cache
      ∧ ∃ item, cache !! key = Some item ∧ data item = value
                ∧ now - timestamp item ≤ TTL
  | None =>
      cache' !! key = None ∧ ∀ k, k ≠ key → cache' !! k = cache !! k
  end.
Proof.
  unfold JobCache_get. destruct (cache !! key) as [item|] eqn:Hkey.
  - destruct (Z.ltb_spec TTL (now - timestamp item)); intros [= <- <-].
    + split; [apply lookup_delete_eq|].
      intros k Hk. by apply lookup_delete_ne.
    + split; [done|]. exists item. split; [done|]. split; [done | lia].
  - intros [= <- <-]. done.
Qed.

Lemma JobCache_get_sound_witness :
  JobCache_set 0 "a" [Sample.engineer] ∅ = JobCache_set 0 "a" [Sample.engineer] ∅
  ∧ ∃ item, JobCache_set 0 "a" [Sample.engineer] ∅ !! "a" = Some item
            ∧ data item = [Sample.engineer] ∧ 7 - timestamp item ≤ TTL.
Proof.
  apply (JobCache_get_sound (JobCache_set 0 "a" [Sample.engineer] ∅) _ "a" 7
           (Some [Sample.engineer])).
  reflexivity.
Defined.

Lemma JobCache_clear_twice now (cache : gmap string cache_item) :
  JobCache_clear now (JobCache_clear now cache) = JobCache_clear now cache.
Proof.
  apply map_eq. intros k. rewrite !JobCache_clear_lookup.
  destruct (cache !! k) as [item|]; [|done].
  case_decide; [done|]. by rewrite decide_False.
Qed.

(** X3. The sweep: [clear] never makes the cache larger, sweeping twice at
    the same time is sweeping once, and a read after the sweep gives what
    the read before it gave and leaves the swept cache untouched (the lazy
    removal of [get] and the sweep agree). *)
Theorem JobCache_clear_sweep
    (cache : gmap string cache_item) (now : Z) (key : string) :
  (JobCache_getCacheSize (JobCache_clear now cache)
   ≤ JobCache_getCacheSize cache)%nat
  ∧ JobCache_clear now (JobCache_clear now cache) = JobCache_clear now cache
  ∧ JobCache_get now key (JobCache_clear now cache)
    = ((JobCache_get now key cache).1, JobCache_clear now cache).
Proof.
  split; [|split].
  - unfold JobCache_getCacheSize, JobCache_clear.
    apply map_subseteq_size, map_filter_subseteq.
  - apply JobCache_clear_twice.
  - unfold JobCache_get. rewrite JobCache_clear_lookup.
    destruct (cache !! key) as [item|]; [|done].
    case_decide as Hage.
    + by destruct (Z.ltb_spec TTL (now - timestamp item)); [|lia].
    + by destruct (Z.ltb_spec TTL (now - timestamp item)); [lia|].
Qed.

(** X4. A second [set] under a key replaces the first (the last write
    wins, time stamp included) without growing the cache; a [set] under a
    new key grows it by one. *)
Theorem JobCache_set_overwrites
    (cache : gmap string cache_item) (key : string)
    (v1 v2 : list JobData.t) (t1 t2 : Z) :
  JobCache_set t2 key v2 (JobCache_set t1 key v1 cache)
  = JobCache_set t2 key v2 cache
  ∧ JobCache_getCacheSize (JobCache_set t1 key v1 cache)
    = match cache !! key with
      | Some _ => JobCache_getCacheSize cache
      | None => S (JobCache_getCacheSize cache)
      end.
Proof.
  unfold JobCache_set, JobCache_getCacheSize. split.
  - apply insert_insert_eq.
  - destruct (cache !! key) as [item|] eqn:Hkey.
    + rewrite <-(insert_delete_id cache key item) at 2 by done.
      rewrite <-(insert_delete_eq cache).
      by rewrite !map_size_insert_None by apply lookup_delete_eq.
    + by apply map_size_insert_None.
Qed.

(** ** More on the query and its address *)

Lemma lower_char_idem c : lower_char (lower_char c) = lower_char c.
Proof. by destruct c as [[] [] [] [] [] [] [] []]. Qed.

Lemma toLowerCase_idem s : toLowerCase (toLowerCase s) = toLowerCase s.
Proof.
  induction s as [|c s IH]; simpl; [done|].
  by rewrite lower_char_idem, IH.
Qed.

(** X5. The date-posted, experience, job-type and remote filters are read
    without regard to case: spelling them in lower case changes no filter
    token and no address. *)
Theorem url_filters_case_insensitive (q : Query) (o : Z) :
  getDateSincePosted (lower_filters q) = getDateSincePosted q
  ∧ getExperienceLevel (lower_filters q) = getExperienceLevel q
  ∧ getJobType (lower_filters q) = getJobType q
  ∧ getRemoteFilter (lower_filters q) = getRemoteFilter q
  ∧ url (lower_filters q) o = url q o.
Proof.
  assert (getDateSincePosted (lower_filters q) = getDateSincePosted q) as Hd.
  { unfold getDateSincePosted. simpl. by rewrite toLowerCase_idem. }
  assert (getExperienceLevel (lower_filters q) = getExperienceLevel q) as He.
  { unfold getExperienceLevel. simpl. by rewrite toLowerCase_idem. }
  assert (getJobType (lower_filters q) = getJobType q) as Hj.
  { unfold getJobType. simpl. by rewrite toLowerCase_idem. }
  assert (getRemoteFilter (lower_filters q) = getRemoteFilter q) as Hr.
  { unfold getRemoteFilter. simpl. by rewrite toLowerCase_idem. }
  repeat split; try done.
  unfold url. rewrite !url_params_entries, Hd, He, Hj, Hr. done.
Qed.

(** X6. The addresses of one query for two different offsets differ, as
    long as the offsets are safe integers (so that the code computes and
    prints them exactly): no two pages of a search are requested from the
    same address. *)
Theorem url_offset_inj (q : Query) (o1 o2 : Z) :
  exact_start q o1 → exact_start q o2 →
  o1 ≠ o2 → url q o1 ≠ url q o2.
Proof.
  intros _ _ Hne [_ Hparams]%url_inj.
  destruct (url_params_get q o1) as (_ & _ & _ & _ & _ & _ & _ & P1 & _).
  destruct (url_params_get q o2) as (_ & _ & _ & _ & _ & _ & _ & P2 & _).
  rewrite Hparams, P2 in P1. injection P1 as P1%(inj pretty). lia.
Qed.

Lemma url_offset_inj_witness :
  url (Sample.london (Some (Int 10))) 0
  ≠ url (Sample.london (Some (Int 10))) 25.
Proof.
  apply (url_offset_inj (Sample.london (Some (Int 10))) 0 25).
  - unfold exact_start, safe_integer, MAX_SAFE_INTEGER. simpl. lia.
  - unfold exact_start, safe_integer, MAX_SAFE_INTEGER. simpl. lia.
  - lia.
Defined.

Lemma trimStart_nonspace s : all_chars nonspace s = true → trimStart s = s.
Proof.
  destruct s as [|c s]; simpl; [done|].
  intros [Hc _]%andb_true_iff. by apply negb_true_iff in Hc as ->.
Qed.

Lemma replace_ws_nonspace sep b s :
  all_chars nonspace s = true → replace_ws_go sep b s = s.
Proof.
  revert b. induction s as [|c s IH]; intros b; simpl; [done|].
  intros [Hc Hs]%andb_true_iff. apply negb_true_iff in Hc as ->.
  by rewrite IH.
Qed.

(** X7. Normalizing is idempotent: a keyword or location that the
    constructor has normalized comes out of the constructor unchanged. *)
Theorem normalize_idempotent (x : option string) :
  normalize (Some (normalize x)) = normalize x.
Proof.
  assert (all_chars nonspace (normalize x) = true) as Hclean.
  { destruct x as [s|]; simpl; [|done]. rewrite or_else_empty.
    apply replace_ws_no_space. }
  unfold normalize at 1. rewrite or_else_empty. unfold trim, replace_ws.
  by rewrite trimStart_nonspace, trimEnd_word, replace_ws_nonspace.
Qed.

(** ** More on the pagination loop *)

Section Runs.

Variable cheerio_li : string → option (list (option li_card)).
Variable axios_get : nat → string → http_result.
Variable random_ms : nat → Z.
Variable axios_ms : nat → Z.

Local Abbreviation fetch := (fetchJobBatch cheerio_li axios_get axios_ms).
Local Abbreviation sent := (send_request axios_ms).
Local Abbreviation body :=
  (loop_body cheerio_li axios_get random_ms axios_ms).
Local Abbreviation run :=
  (run_loop cheerio_li axios_get random_ms axios_ms).
Local Abbreviation jobs_of :=
  (getJobs cheerio_li axios_get random_ms axios_ms).

#[local] Arguments run_loop : simpl never.

Lemma run_loop_more_fuel q fuel fuel' st w r :
  run fuel q st w = Some r → (fuel ≤ fuel')%nat → run fuel' q st w = Some r.
Proof.
  revert fuel' st w. induction fuel as [|fuel IH]; intros fuel' st w; [done|].
  destruct fuel' as [|fuel']; [lia|].
  rewrite !run_loop_step. destruct (body q st w); [|done].
  intros Hrun Hfuel. apply IH; [done | lia].
Qed.

Lemma run_loop_ends q fuel st w :
  0 < limit q →
  Z.of_nat (List.length (allJobs st)) < limit q →
  0 ≤ consecutiveErrors st ≤ 2 →
  3 * (limit q - Z.of_nat (List.length (allJobs st))) - consecutiveErrors st
  ≤ Z.of_nat fuel →
  is_Some (run fuel q st w).
Proof.
  intros Hlimit. revert st w.
  induction fuel as [|fuel IH]; intros st w Hbelow Herrors Hfuel; [lia|].
  rewrite run_loop_step.
  destruct (loop_body_cases cheerio_li axios_get axios_ms q st w)
    as [(e & w1 & Hfetch)|[(w1 & Hfetch)|(page & w1 & Hfetch & Hpage)]].
  - rewrite (loop_body_failure _ _ _ _ _ _ _ _ _ Hfetch).
    unfold MAX_CONSECUTIVE_ERRORS.
    destruct (Z.leb_spec 3 (consecutiveErrors st + 1)); [done|].
    apply IH; simpl; lia.
  - by rewrite (loop_body_empty_page _ _ _ _ _ _ _ _ Hfetch).
  - rewrite (loop_body_page _ _ _ _ _ _ _ _ _ Hfetch Hpage).
    destruct (Z.eqb_spec (limit q) 0); [lia|].
    destruct (Z.leb_spec (limit q)
                (Z.of_nat (List.length (allJobs st ++ page)))); simpl; [done|].
    assert (0 < List.length page)%nat by (destruct page; [done | simpl; lia]).
    rewrite length_app in *. apply IH; simpl; rewrite ?length_app; lia.
Qed.

Lemma run_loop_requests q fuel st w why jobs w' :
  run fuel q st w = Some (why, jobs, w') →
  (requests w < requests w' ≤ requests w + fuel)%nat ∧ cache w' = cache w.
Proof.
  revert st w. induction fuel as [|fuel IH]; intros st w; [done|].
  rewrite run_loop_step.
  pose proof (fetchJobBatch_world cheerio_li axios_get axios_ms q (start st) w) as Hw.
  destruct (loop_body_cases cheerio_li axios_get axios_ms q st w)
    as [(e & w1 & Hfetch)|[(w1 & Hfetch)|(page & w1 & Hfetch & Hpage)]];
    rewrite Hfetch in Hw; simpl in Hw; subst w1.
  - rewrite (loop_body_failure _ _ _ _ _ _ _ _ _ Hfetch).
    destruct (_ <=? _).
    + intros [= _ _ <-]. simpl. split; [lia | done].
    + intros [Hreq Hcache]%IH. simpl in *. split; [lia | done].
  - rewrite (loop_body_empty_page _ _ _ _ _ _ _ _ Hfetch).
    intros [= _ _ <-]. simpl. split; [lia | done].
  - rewrite (loop_body_page _ _ _ _ _ _ _ _ _ Hfetch Hpage).
    destruct (_ && _).
    + intros [= _ _ <-]. simpl. split; [lia | done].
    + intros [Hreq Hcache]%IH. simpl in *. split; [lia | done].
Qed.

(** X9. With a positive limit [L] the loop always ends: [3 * L] turns are
    enough whatever the network answers, so [getJobs] returns after at most
    [3 * L] requests (each success adds a record, and no more than two
    failures in a row are retried). *)
Theorem getJobs_ends_with_limit (q : Query) (w : world) (fuel : nat) :
  0 < limit q →
  3 * limit q ≤ Z.of_nat fuel →
  ∃ jobs w',
    jobs_of fuel q w = Some (Returned jobs, w')
    ∧ Z.of_nat (requests w') ≤ Z.of_nat (requests w) + 3 * limit q.
Proof.
  intros Hlimit Hfuel. unfold getJobs.
  destruct (cache_get (url q 0) w) as [[cached|] w0] eqn:Hget.
  { exists cached, w0. split; [done|].
    unfold cache_get in Hget. destruct (JobCache_get _ _ _).
    injection Hget as _ <-. simpl. lia. }
  assert (requests w0 = requests w) as Hreq.
  { unfold cache_get in Hget. destruct (JobCache_get _ _ _).
    by injection Hget as _ <-. }
  destruct (run_loop_ends q (Z.to_nat (3 * limit q)) loop_init w0)
    as [[[why jobs] w1] Hrun]; [done | simpl; lia.. |].
  pose proof (run_loop_requests _ _ _ _ _ _ _ Hrun) as [Hcount _].
  rewrite (run_loop_more_fuel _ _ fuel _ _ _ Hrun) by lia.
  eexists _, _. split; [done|].
  destruct (0 <? List.length jobs)%nat; simpl; lia.
Qed.

Lemma run_loop_endless q fuel st w :
  limit q = 0 →
  (∀ o w0, ∃ jobs, (fetch q o w0).1 = Returned jobs ∧ jobs ≠ []) →
  run fuel q st w = None.
Proof.
  intros Hlimit Hfull. revert st w.
  induction fuel as [|fuel IH]; intros st w; [done|].
  destruct (Hfull (start st) w) as (jobs & Hfetch & Hjobs).
  rewrite run_loop_step.
  rewrite (loop_body_no_limit _ _ _ _ q st w jobs (fetch q (start st) w).2);
    [apply IH | done | | done].
  rewrite <-Hfetch. by destruct (fetch q (start st) w).
Qed.

(** X10. Without a limit nothing bounds the loop: if every fetch comes back
    with a page that is not empty, no number of turns ends it, and
    [getJobs], once past the cache, does not return. *)
Theorem getJobs_endless_without_limit (q : Query) (w : world) (fuel : nat) :
  limit q = 0 →
  (∀ o w0, ∃ jobs, (fetch q o w0).1 = Returned jobs ∧ jobs ≠ []) →
  (cache_get (url q 0) w).1 = None →
  jobs_of fuel q w = None.
Proof.
  intros Hlimit Hfull Hmiss. unfold getJobs.
  destruct (cache_get (url q 0) w) as [cached w0]. simpl in Hmiss.
  subst cached. by rewrite run_loop_endless.
Qed.

End Runs.

Lemma getJobs_ends_with_limit_witness :
  ∃ jobs w',
    getJobs Sample.cheerio_li SampleTool.always_one
      Sample.no_jitter Sample.latency 30
      (Sample.london (Some (Int 10))) Sample.fresh
    = Some (Returned jobs, w')
    ∧ Z.of_nat (requests w')
      ≤ Z.of_nat (requests Sample.fresh)
        + 3 * limit (Sample.london (Some (Int 10))).
Proof.
  apply (getJobs_ends_with_limit Sample.cheerio_li SampleTool.always_one

             Sample.no_jitter Sample.latency (Sample.london (Some (Int 10))) Sample.fresh 30).
  - done.
  - simpl. lia.
Defined.

Lemma getJobs_endless_without_limit_witness :
  getJobs Sample.cheerio_li Sample.always_three
    Sample.no_jitter Sample.latency 1000
    (Sample.london None) Sample.fresh
  = None.
Proof.
  apply (getJobs_endless_without_limit Sample.cheerio_li Sample.always_three

             Sample.no_jitter Sample.latency (Sample.london None) Sample.fresh 1000).
  - done.
  - intros o w0. by eexists.
  - done.
Defined.

Section Traces.

Variable cheerio_li : string → option (list (option li_card)).
Variable axios_get : nat → string → http_result.
Variable random_ms : nat → Z.
Variable axios_ms : nat → Z.

Local Abbreviation fetch := (fetchJobBatch cheerio_li axios_get axios_ms).
Local Abbreviation sent := (send_request axios_ms).
Local Abbreviation body :=
  (loop_body cheerio_li axios_get random_ms axios_ms).
Local Abbreviation run :=
  (run_loop cheerio_li axios_get random_ms axios_ms).
Local Abbreviation jobs_of :=
  (getJobs cheerio_li axios_get random_ms axios_ms).

#[local] Arguments run_loop : simpl never.

Lemma backoff_at_least_2000 (errors : Z) :
  0 ≤ errors → 2000 ≤ 2 ^ (errors + 1) * 1000.
Proof.
  intros Herrors. rewrite Z.pow_add_r by lia.
  pose proof (Z.pow_pos_nonneg 2 errors). change (2 ^ 1) with 2. lia.
Qed.

Lemma turns_trace_cons q o ms turns last :
  turns_trace q ((o, ms) :: turns) last
  = Request (url q o) :: Sleep ms :: turns_trace q turns last.
Proof. done. Qed.

Lemma run_loop_trace q fuel st w why jobs w' :
  (∀ n, 0 ≤ random_ms n) →
  (∀ n, 0 ≤ axios_ms n) →
  0 ≤ consecutiveErrors st →
  run fuel q st w = Some (why, jobs, w') →
  ∃ turns last,
    trace w' = trace w ++ turns_trace q turns last
    ∧ requests w' = (requests w + List.length turns + 1)%nat
    ∧ clock w + turns_wait turns ≤ clock w'
    ∧ Forall (λ turn, 2000 ≤ turn.2
                      ∧ ∃ k, 0 ≤ k ∧ turn.1 = start st + 25 * k) turns
    ∧ ∃ k, 0 ≤ k ∧ last = start st + 25 * k.
Proof.
  intros Hrandom Hlatency. revert st w.
  induction fuel as [|fuel IH]; intros st w Herrors; [done|].
  rewrite run_loop_step.
  pose proof (fetchJobBatch_world cheerio_li axios_get axios_ms q (start st) w)
    as Hw.
  pose proof (Hlatency (requests w)) as Hms0.
  assert (∀ w1 why0 jobs0, w1 = sent (url q (start st)) w →
            Some (why0, jobs0, w1) = Some (why, jobs, w') →
            ∃ turns last,
              trace w' = trace w ++ turns_trace q turns last
              ∧ requests w' = (requests w + List.length turns + 1)%nat
              ∧ clock w + turns_wait turns ≤ clock w'
              ∧ Forall (λ turn, 2000 ≤ turn.2
                          ∧ ∃ k, 0 ≤ k ∧ turn.1 = start st + 25 * k) turns
              ∧ ∃ k, 0 ≤ k ∧ last = start st + 25 * k) as Hlast.
  { intros w1 why0 jobs0 -> [= _ _ <-]. exists [], (start st). simpl.
    repeat split; [lia | lia | done |]. exists 0. lia. }
  assert (∀ st' ms,
            2000 ≤ ms → 0 ≤ consecutiveErrors st' →
            (start st' = start st ∨ start st' = start st + 25) →
            run fuel q st' (delay ms (sent (url q (start st)) w))
            = Some (why, jobs, w') →
            ∃ turns last,
              trace w' = trace w ++ turns_trace q turns last
              ∧ requests w' = (requests w + List.length turns + 1)%nat
              ∧ clock w + turns_wait turns ≤ clock w'
              ∧ Forall (λ turn, 2000 ≤ turn.2
                          ∧ ∃ k, 0 ≤ k ∧ turn.1 = start st + 25 * k) turns
              ∧ ∃ k, 0 ≤ k ∧ last = start st + 25 * k) as Hnext.
  { intros st' ms Hms Herrors' Hstart Hrun.
    apply IH in Hrun as (turns & last & Htrace & Hreq & Hclock & Hturns
                         & k & Hk & Hlast'); [|done].
    exists ((start st, ms) :: turns), last.
    rewrite turns_trace_cons. simpl in *.
    rewrite Htrace, <-!(assoc_L (++)). simpl.
    split; [done|]. split; [lia|]. split; [lia|]. split.
    - constructor.
      + simpl. split; [done|]. exists 0. lia.
      + eapply Forall_impl; [exact Hturns|].
        intros turn [? (k' & Hk' & ->)]. split; [done|].
        destruct Hstart as [->| ->]; [exists k' | exists (k' + 1)]; lia.
    - destruct Hstart as [Hs|Hs]; rewrite Hs in Hlast';
        [exists k | exists (k + 1)]; lia. }
  destruct (loop_body_cases cheerio_li axios_get axios_ms q st w)
    as [(e & w1 & Hfetch)|[(w1 & Hfetch)|(page & w1 & Hfetch & Hpage)]];
    rewrite Hfetch in Hw; simpl in Hw.
  - rewrite (loop_body_failure _ _ _ _ _ _ _ _ _ Hfetch).
    destruct (_ <=? _); [by apply Hlast|]. subst w1.
    apply Hnext; simpl; [by apply backoff_at_least_2000 | lia | by left].
  - rewrite (loop_body_empty_page _ _ _ _ _ _ _ _ Hfetch). by apply Hlast.
  - rewrite (loop_body_page _ _ _ _ _ _ _ _ _ Hfetch Hpage).
    destruct (_ && _); [by apply Hlast|]. subst w1.
    apply Hnext; simpl; [|done | by right].
    specialize (Hrandom (S (requests w))). lia.
Qed.

(** X11. What a run of the loop does on the network, given that
    [Math.random()] is not negative and that a request takes no negative
    time: it alternates requests and waits, starting and ending with a
    request; every wait between two requests is at least 2000 ms; every
    request is for an offset [25 * k]; the clock moves on by the sum of the
    waits at least (the requests take their time too); and the number of
    requests is one more than the number of waits. *)
Theorem run_loop_paces_requests
    (q : Query) (fuel : nat) (w : world) (why : stop)
    (jobs : list JobData.t) (w' : world) :
  (∀ n, 0 ≤ random_ms n) →
  (∀ n, 0 ≤ axios_ms n) →
  run fuel q loop_init w = Some (why, jobs, w') →
  ∃ turns last,
    trace w' = trace w ++ turns_trace q turns last
    ∧ requests w' = (requests w + List.length turns + 1)%nat
    ∧ clock w + turns_wait turns ≤ clock w'
    ∧ Forall (λ turn, 2000 ≤ turn.2 ∧ ∃ k, 0 ≤ k ∧ turn.1 = 25 * k) turns
    ∧ ∃ k, 0 ≤ k ∧ last = 25 * k.
Proof.
  intros Hrandom Hlatency Hrun.
  by apply run_loop_trace in Hrun.
Qed.

Lemma parse_card_valid job r : parse_card job = Some r → valid_job r = true.
Proof.
  unfold parse_card, valid_job.
  destruct (truthy (trim (title_text job))) eqn:Hp; [|done].
  destruct (truthy (trim (subtitle_text job))) eqn:Hc; [|done].
  simpl. intros [= <-]. simpl. by rewrite Hp, Hc.
Qed.

Lemma parseJobList_valid jobData :
  Forall (λ job, valid_job job = true) (parseJobList cheerio_li jobData).
Proof.
  unfold parseJobList. destruct (cheerio_li jobData) as [elements|]; [|done].
  apply Forall_forall. intros r ([job|] & _ & Hjob)%list_elem_of_omap; [|done].
  by apply parse_card_valid in Hjob.
Qed.

Lemma fetchJobBatch_valid q o w jobs w1 :
  fetch q o w = (Returned jobs, w1) →
  Forall (λ job, valid_job job = true) jobs.
Proof.
  unfold fetchJobBatch. destruct (axios_get _ _) as [code data|]; [|done].
  destruct (code =? 200); [|by destruct (code =? 429)].
  intros [= <- _]. apply parseJobList_valid.
Qed.

Lemma slice0_Forall {A} (P : A → Prop) (l : list A) (e : Z) :
  Forall P l → Forall P (slice0 l e).
Proof. intros Hl. unfold slice0. destruct (e <? 0); by apply Forall_take. Qed.

Lemma run_loop_valid q fuel st w why jobs w' :
  Forall (λ job, valid_job job = true) (allJobs st) →
  run fuel q st w = Some (why, jobs, w') →
  Forall (λ job, valid_job job = true) jobs.
Proof.
  revert st w. induction fuel as [|fuel IH]; intros st w Hst; [done|].
  rewrite run_loop_step.
  destruct (loop_body_cases cheerio_li axios_get axios_ms q st w)
    as [(e & w1 & Hfetch)|[(w1 & Hfetch)|(page & w1 & Hfetch & Hpage)]].
  - rewrite (loop_body_failure _ _ _ _ _ _ _ _ _ Hfetch).
    destruct (_ <=? _); [by intros [= _ <- _]|]. by apply IH.
  - rewrite (loop_body_empty_page _ _ _ _ _ _ _ _ Hfetch).
    by intros [= _ <- _].
  - rewrite (loop_body_page _ _ _ _ _ _ _ _ _ Hfetch Hpage).
    assert (Forall (λ job, valid_job job = true) (allJobs st ++ page)) as Hall.
    { apply Forall_app. split; [done|]. by eapply fetchJobBatch_valid. }
    destruct (_ && _); [|by apply IH].
    intros [= _ <- _]. by apply slice0_Forall.
Qed.

(** X12. Every record that [getJobs] obtains from the network has a
    position and a company, and with a positive limit there are at most
    [limit] of them; a record without position or company can only come out
    of the cache. *)
Theorem getJobs_records_valid
    (q : Query) (fuel : nat) (w : world) (jobs : list JobData.t) (w' : world) :
  (cache_get (url q 0) w).1 = None →
  jobs_of fuel q w = Some (Returned jobs, w') →
  Forall (λ job, valid_job job = true) jobs
  ∧ (0 < limit q → Z.of_nat (List.length jobs) ≤ limit q).
Proof.
  unfold getJobs. destruct (cache_get (url q 0) w) as [cached w0].
  simpl. intros ->.
  destruct (run fuel q loop_init w0) as [[[why all] w1]|] eqn:Hrun; [|done].
  intros [= <- _]. split.
  - by apply run_loop_valid in Hrun.
  - intros Hlimit.
    apply run_loop_limit in Hrun; [|done | simpl; lia].
    destruct why; lia.
Qed.

(** X13. [getJobs] reads and writes the cache under its own key only: every
    other key reads afterwards as before.  After a run that went to the
    network, its own key holds the records returned, stamped with the time
    of the return, when there are some, and is absent when there are
    none. *)
Theorem getJobs_cache_effect
    (q : Query) (fuel : nat) (w : world)
    (r : completion (list JobData.t)) (w' : world) :
  jobs_of fuel q w = Some (r, w') →
  (∀ k, k ≠ url q 0 → cache w' !! k = cache w !! k)
  ∧ ((cache_get (url q 0) w).1 = None →
     ∃ jobs, r = Returned jobs
       ∧ cache w' !! url q 0
         = match jobs with
           | [] => None
           | _ => Some {| data := jobs; timestamp := clock w' |}
           end).
Proof.
  unfold getJobs, cache_get.
  destruct (JobCache_get (clock w) (url q 0) (cache w)) as [cached c0] eqn:Hget.
  apply JobCache_get_cases in Hget. destruct cached as [cached|].
  - destruct Hget as [-> _]. intros [= <- <-]. simpl. split; [done|done].
  - destruct Hget as [Hown Hother]. simpl.
    destruct (run fuel q loop_init _) as [[[why all] w1]|] eqn:Hrun; [|done].
    apply run_loop_requests in Hrun as [_ Hcache]. simpl in Hcache.
    intros [= <- <-]. split.
    + intros k Hk. destruct all; simpl.
      * rewrite Hcache. by apply Hother.
      * unfold JobCache_set. rewrite lookup_insert_ne by done.
        rewrite Hcache. by apply Hother.
    + intros _. exists all. split; [done|]. destruct all; simpl.
      * by rewrite Hcache.
      * unfold JobCache_set. by rewrite lookup_insert_eq.
Qed.

(** X14. A negative limit [L] stops the loop at the first page that is not
    empty and returns the accumulated records without their last [-L]
    (none at all when there are no more than [-L]). *)
Theorem getJobs_negative_limit
    (q : Query) (st : loop_state) (w : world)
    (jobs : list JobData.t) (w1 : world) :
  limit q < 0 →
  fetch q (start st) w = (Returned jobs, w1) →
  jobs ≠ [] →
  body q st w
  = Break LimitReached
      (take (List.length (allJobs st ++ jobs) - Z.to_nat (- limit q))
            (allJobs st ++ jobs)) w1.
Proof.
  intros Hlimit Hfetch Hjobs.
  rewrite (loop_body_page _ _ _ _ _ _ _ _ _ Hfetch Hjobs).
  destruct (Z.eqb_spec (limit q) 0); [lia|].
  destruct (Z.leb_spec (limit q)
              (Z.of_nat (List.length (allJobs st ++ jobs)))); [|lia].
  simpl. unfold slice0. destruct (Z.ltb_spec (limit q) 0); [|lia].
  do 2 f_equal. lia.
Qed.

End Traces.

Lemma run_loop_paces_requests_witness :
  ∃ turns last,
    trace (send_request Sample.latency
             (url (Sample.london (Some (Int 5))) 25)
             (delay 2000
                (send_request Sample.latency
                   (url (Sample.london (Some (Int 5))) 0) Sample.fresh)))
    = trace Sample.fresh
      ++ turns_trace (Sample.london (Some (Int 5))) turns last
    ∧ requests (send_request Sample.latency
                  (url (Sample.london (Some (Int 5))) 25)
                  (delay 2000
                     (send_request Sample.latency
                        (url (Sample.london (Some (Int 5))) 0) Sample.fresh)))
      = (requests Sample.fresh + List.length turns + 1)%nat
    ∧ clock Sample.fresh + turns_wait turns
      ≤ clock (send_request Sample.latency
                 (url (Sample.london (Some (Int 5))) 25)
                 (delay 2000
                    (send_request Sample.latency
                       (url (Sample.london (Some (Int 5))) 0) Sample.fresh)))
    ∧ Forall (λ turn, 2000 ≤ turn.2 ∧ ∃ k, 0 ≤ k ∧ turn.1 = 25 * k) turns
    ∧ ∃ k, 0 ≤ k ∧ last = 25 * k.
Proof.
  apply (run_loop_paces_requests Sample.cheerio_li Sample.always_three
           Sample.no_jitter Sample.latency (Sample.london (Some (Int 5))) 2
           Sample.fresh LimitReached
           [Sample.engineer; Sample.analyst; Sample.designer;
            Sample.engineer; Sample.analyst]).
  - intros n. unfold Sample.no_jitter. lia.
  - intros n. unfold Sample.latency. lia.
  - reflexivity.
Defined.

Lemma getJobs_records_valid_witness :
  Forall (λ job, valid_job job = true)
    [Sample.engineer; Sample.analyst; Sample.designer;
     Sample.engineer; Sample.analyst]
  ∧ (0 < limit (Sample.london (Some (Int 5))) →
     Z.of_nat (List.length [Sample.engineer; Sample.analyst; Sample.designer;
                            Sample.engineer; Sample.analyst])
     ≤ limit (Sample.london (Some (Int 5)))).
Proof.
  apply (getJobs_records_valid Sample.cheerio_li Sample.always_three
           Sample.no_jitter Sample.latency (Sample.london (Some (Int 5))) 2
           Sample.fresh
           _ (cache_set (url (Sample.london (Some (Int 5))) 0)
                [Sample.engineer; Sample.analyst; Sample.designer;
                 Sample.engineer; Sample.analyst]
                (send_request Sample.latency
                   (url (Sample.london (Some (Int 5))) 25)
                   (delay 2000
                      (send_request Sample.latency
                         (url (Sample.london (Some (Int 5))) 0)
                         Sample.fresh))))).
  - reflexivity.
  - reflexivity.
Defined.

Lemma getJobs_cache_effect_witness :
  cache (send_request Sample.latency
           (url (Sample.london (Some (Int 10))) 0)
           (delay 4000
              (send_request Sample.latency
                 (url (Sample.london (Some (Int 10))) 0)
                 (delay 2000
                    (send_request Sample.latency
                       (url (Sample.london (Some (Int 10))) 0)
                       Sample.fresh))))) !! "other"
  = cache Sample.fresh !! "other".
Proof.
  apply (getJobs_cache_effect Sample.cheerio_li Sample.offline
           Sample.no_jitter Sample.latency (Sample.london (Some (Int 10))) 3
           Sample.fresh (Returned [])).
  - reflexivity.
  - intros Heq. vm_compute in Heq. discriminate Heq.
Defined.

Lemma getJobs_negative_limit_witness :
  loop_body Sample.cheerio_li Sample.always_three Sample.no_jitter
    Sample.latency (Sample.london (Some (Int (-1)))) loop_init Sample.fresh
  = Break LimitReached
      (take (List.length (allJobs loop_init
                          ++ [Sample.engineer; Sample.analyst; Sample.designer])
             - Z.to_nat (- limit (Sample.london (Some (Int (-1))))))
         (allJobs loop_init
          ++ [Sample.engineer; Sample.analyst; Sample.designer]))
      (send_request Sample.latency
         (url (Sample.london (Some (Int (-1)))) 0) Sample.fresh).
Proof.
  apply (getJobs_negative_limit Sample.cheerio_li Sample.always_three
           Sample.no_jitter Sample.latency (Sample.london (Some (Int (-1))))
           loop_init Sample.fresh).
  - done.
  - reflexivity.
  - done.
Defined.

(** ** More on the record extractor *)

Lemma trimEnd_idem s : trimEnd (trimEnd s) = trimEnd s.
Proof.
  induction s as [|c s IH]; simpl; [done|].
  destruct (trimEnd s) as [|c' r] eqn:Hr.
  - destruct (is_space c) eqn:Hc; simpl; [done | by rewrite Hc].
  - simpl in IH |- *. by rewrite IH.
Qed.

Lemma trimStart_head s : trimStart (trimStart s) = trimStart s.
Proof.
  induction s as [|c s IH]; simpl; [done|].
  destruct (is_space c) eqn:Hc; [done|]. simpl. by rewrite Hc.
Qed.

Lemma trimStart_trimEnd s :
  trimStart s = s → trimStart (trimEnd s) = trimEnd s.
Proof.
  destruct s as [|c s]; simpl; [done|].
  destruct (is_space c) eqn:Hc.
  - intros Heq. exfalso. apply (f_equal String.length) in Heq.
    assert (∀ t, (String.length (trimStart t) ≤ String.length t)%nat) as Hle.
    { induction t as [|a t IH]; simpl; [done|]. destruct (is_space a); simpl; lia. }
    specialize (Hle s). simpl in Heq. lia.
  - intros _. destruct (trimEnd s); simpl; by rewrite Hc.
Qed.

Lemma trim_idem s : trim (trim s) = trim s.
Proof.
  unfold trim.
  rewrite (trimStart_trimEnd (trimStart s)) by apply trimStart_head.
  apply trimEnd_idem.
Qed.

(** X15. The extractor gives at most one record per [li] element, and the
    position, company, location and age label of every record carry no
    white space at either end. *)
Theorem parseJobList_trimmed
    (cheerio_li : string → option (list (option li_card)))
    (jobData : string) (elements : list (option li_card)) :
  cheerio_li jobData = Some elements →
  (List.length (parseJobList cheerio_li jobData) ≤ List.length elements)%nat
  ∧ Forall (λ r, trim (JobData.position r) = JobData.position r
                 ∧ trim (JobData.company r) = JobData.company r
                 ∧ trim (JobData.location r) = JobData.location r
                 ∧ trim (JobData.agoTime r) = JobData.agoTime r)
      (parseJobList cheerio_li jobData).
Proof.
  intros Hpage. unfold parseJobList. rewrite Hpage. split.
  - clear Hpage. induction elements as [|element elements IH]; csimpl; [done|].
    destruct (parse_element element); simpl; lia.
  - apply Forall_forall.
    intros r ([job|] & _ & Hjob)%list_elem_of_omap; [|done].
    simpl in Hjob. rewrite parse_card_spec in Hjob.
    destruct (ExtractorSpec.has_position_and_company job); [|done].
    injection Hjob as <-. simpl. by rewrite !trim_idem.
Qed.

Lemma parseJobList_trimmed_witness :
  (List.length (parseJobList Sample.cheerio_li "three") ≤ 3)%nat
  ∧ Forall (λ r, trim (JobData.position r) = JobData.position r
                 ∧ trim (JobData.company r) = JobData.company r
                 ∧ trim (JobData.location r) = JobData.location r
                 ∧ trim (JobData.agoTime r) = JobData.agoTime r)
      (parseJobList Sample.cheerio_li "three").
Proof.
  by apply (parseJobList_trimmed Sample.cheerio_li "three"
              [Some (Sample.card "Engineer" "Acme");
               Some (Sample.card "Analyst" "Acme");
               Some (Sample.card "Designer" "Acme")]).
Defined.

(** ** The tool handler *)

Section ToolFacts.

Variable cheerio_li : string → option (list (option li_card)).
Variable axios_get : nat → string → http_result.
Variable random_ms : nat → Z.
Variable axios_ms : nat → Z.
Variable stringify : list JobData.t → string.

Local Abbreviation run :=
  (run_loop cheerio_li axios_get random_ms axios_ms).
Local Abbreviation jobs_of :=
  (getJobs cheerio_li axios_get random_ms axios_ms).
Local Abbreviation call :=
  (call_tool cheerio_li axios_get random_ms axios_ms stringify).

#[local] Arguments run_loop : simpl never.

Lemma getJobs_returns fuel q w r w' :
  jobs_of fuel q w = Some (r, w') → ∃ jobs, r = Returned jobs.
Proof.
  unfold getJobs. destruct (cache_get _ _) as [[cached|] w0].
  - intros [= <- _]. by eexists.
  - destruct (run fuel q loop_init w0) as [[[why all] w1]|]; [|done].
    intros [= <- _]. by eexists.
Qed.

(** X16. The handler refuses a call without touching the world: a tool
    name other than [chat_linkedin_jobs] is unknown, and for that tool the
    query is refused exactly when it is absent, not a string, or the empty
    string.  The refusal needs no turn of the loop. *)
Theorem call_tool_refusals
    (fuel : nat) (name : string) (query : option jsvalue) (w : world) :
  (name ≠ "chat_linkedin_jobs" →
   call fuel name query w = Some (ToolError "Unknown tool", w))
  ∧ (∀ r w',
       call fuel "chat_linkedin_jobs" query w = Some (r, w') →
       (r = ToolError "Query is required and must be a string"
        ↔ query = None ∨ query = Some JOther ∨ query = Some (JString "")))
  ∧ (query = None ∨ query = Some JOther ∨ query = Some (JString "") →
     call fuel "chat_linkedin_jobs" query w
     = Some (ToolError "Query is required and must be a string", w)).
Proof.
  split; [|split].
  - intros Hname. unfold call_tool. by rewrite decide_False.
  - intros r w'. unfold call_tool. rewrite decide_True by done.
    destruct query as [[s|]|]; [|intros [= <- _]; split; auto..].
    destruct s as [|c s]; simpl; [intros [= <- _]; split; auto|].
    destruct (jobs_of _ _ _) as [[r0 w0]|] eqn:Hjobs; [|done].
    destruct (getJobs_returns _ _ _ _ _ Hjobs) as [jobs ->].
    intros [= <- _]. split; [done|]. intros [|[|]]; done.
  - unfold call_tool. rewrite decide_True by done.
    by intros [->|[->| ->]].
Qed.

Lemma tool_cache_get now key (c c' : gmap string cache_item) r :
  tool_cache c → JobCache_get now key c = (r, c') →
  tool_cache c'
  ∧ match r with
    | Some jobs =>
        (List.length jobs ≤ 10)%nat ∧ Forall (λ job, valid_job job = true) jobs
    | None => True
    end.
Proof.
  intros Hc Hget. apply JobCache_get_cases in Hget. destruct r as [jobs|].
  - destruct Hget as (-> & item & Hitem & <- & _). split; [done|].
    by apply (Hc key item).
  - destruct Hget as [Hown Hother]. split; [|done].
    intros k item Hk. destruct (decide (k = key)) as [->|Hne]; [congruence|].
    rewrite Hother in Hk by done. by apply (Hc k item).
Qed.

(** X17. Whatever the handler is called with, it keeps the cache within
    its bounds (no entry of more than ten records, every cached record with
    a position and a company), and a call that answers with text answers
    with the rendering of at most ten records, each with a position and a
    company; the only errors it raises are the two refusals, which leave
    the world as it was. *)
Theorem call_tool_at_most_ten
    (fuel : nat) (name : string) (query : option jsvalue) (w : world)
    (r : tool_result) (w' : world) :
  tool_cache (cache w) →
  call fuel name query w = Some (r, w') →
  tool_cache (cache w')
  ∧ match r with
    | ToolText text =>
        ∃ jobs, text = stringify jobs
                ∧ (List.length jobs ≤ 10)%nat
                ∧ Forall (λ job, valid_job job = true) jobs
    | ToolError message =>
        w' = w
        ∧ (message = "Unknown tool"
           ∨ message = "Query is required and must be a string")
    end.
Proof.
  intros Hcache. unfold call_tool.
  case_decide as Hname; [|intros [= <- <-]; auto].
  destruct query as [[s|]|]; [|intros [= <- <-]; auto..].
  destruct (truthy s); [|intros [= <- <-]; auto].
  unfold getJobs, cache_get.
  destruct (JobCache_get (clock w) _ (cache w)) as [cached c0] eqn:Hget.
  destruct (tool_cache_get _ _ _ _ _ Hcache Hget) as [Hc0 Hcached].
  destruct cached as [cached|].
  { intros [= <- <-]. simpl. split; [done|]. exists cached. tauto. }
  destruct (run fuel _ loop_init _) as [[[why all] w1]|] eqn:Hrun; [|done].
  pose proof (run_loop_requests _ _ _ _ _ _ _ _ _ _ _ Hrun) as [_ Hsame].
  pose proof (run_loop_valid _ _ _ _ _ _ loop_init _ _ _ _ (Forall_nil_2 _) Hrun)
    as Hvalid.
  pose proof (run_loop_limit _ _ _ _ (Query_new (tool_query s)) _ loop_init
                _ _ _ _ eq_refl eq_refl Hrun) as Hlen.
  assert (List.length all ≤ 10)%nat as Hten.
  { simpl in Hlen. destruct why; lia. }
  simpl in Hsame. intros [= <- <-]. split.
  - destruct all as [|job all]; simpl; [by rewrite Hsame|].
    unfold JobCache_set. rewrite Hsame.
    apply map_Forall_insert_2; [|done]. simpl. done.
  - exists all. done.
Qed.

(** X18. The handler always answers: its limit is ten, so thirty turns of
    the loop are enough for every call, and a call issues at most thirty
    requests. *)
Theorem call_tool_answers
    (fuel : nat) (name : string) (query : option jsvalue) (w : world) :
  (30 ≤ fuel)%nat →
  ∃ r w', call fuel name query w = Some (r, w')
          ∧ (requests w' ≤ requests w + 30)%nat.
Proof.
  intros Hfuel. unfold call_tool.
  case_decide as Hname; [|eexists _, _; split; [done | lia]].
  destruct query as [[s|]|]; [|eexists _, _; split; [done | lia]..].
  destruct (truthy s); [|eexists _, _; split; [done | lia]].
  unfold getJobs, cache_get.
  destruct (JobCache_get (clock w) _ (cache w)) as [[cached|] c0].
  { eexists _, _. split; [done|]. simpl. lia. }
  set (q := Query_new (tool_query s)).
  set (w0 := {| cache := c0; clock := clock w; requests := requests w;
                trace := trace w |}).
  destruct (run_loop_ends cheerio_li axios_get random_ms axios_ms q 30 loop_init w0)
    as [[[why all] w1] Hrun]; [done | done | simpl; lia | simpl; lia |].
  pose proof (run_loop_requests _ _ _ _ _ _ _ _ _ _ _ Hrun) as [Hcount _].
  rewrite (run_loop_more_fuel _ _ _ _ _ _ fuel _ _ _ Hrun) by lia.
  eexists _, _. split; [done|].
  simpl in Hcount. destruct (0 <? List.length all)%nat; simpl; lia.
Qed.

End ToolFacts.

Lemma call_tool_refusals_witness :
  call_tool Sample.cheerio_li Sample.offline Sample.no_jitter Sample.latency
    SampleTool.stringify 0 "chat_linkedin_jobs" (Some (JString ""))
    Sample.fresh
  = Some (ToolError "Query is required and must be a string", Sample.fresh)
  ∧ call_tool Sample.cheerio_li Sample.offline Sample.no_jitter Sample.latency
      SampleTool.stringify 0 "other" None Sample.fresh
    = Some (ToolError "Unknown tool", Sample.fresh).
Proof.
  split.
  - apply (call_tool_refusals Sample.cheerio_li Sample.offline

               Sample.no_jitter Sample.latency SampleTool.stringify 0 "chat_linkedin_jobs").
    by right; right.
  - by apply (call_tool_refusals Sample.cheerio_li Sample.offline
                Sample.no_jitter Sample.latency SampleTool.stringify 0 "other").
Defined.

Lemma call_tool_at_most_ten_witness :
  ∃ jobs, SampleTool.stringify
            (replicate 10 Sample.engineer) = SampleTool.stringify jobs
          ∧ (List.length jobs ≤ 10)%nat
          ∧ Forall (λ job, valid_job job = true) jobs.
Proof.
  refine (proj2 (call_tool_at_most_ten Sample.cheerio_li SampleTool.always_one
                   Sample.no_jitter Sample.latency SampleTool.stringify 12
                   "chat_linkedin_jobs" (Some (JString "engineer"))
                   Sample.fresh
                   (ToolText (SampleTool.stringify
                                (replicate 10 Sample.engineer)))
                   _ _ _)).
  - apply map_Forall_empty.
  - reflexivity.
Defined.

Lemma call_tool_answers_witness :
  ∃ r w',
    call_tool Sample.cheerio_li SampleTool.always_one
      Sample.no_jitter Sample.latency
      SampleTool.stringify 30 "chat_linkedin_jobs"
      (Some (JString "engineer")) Sample.fresh
    = Some (r, w')
    ∧ (requests w' ≤ requests Sample.fresh + 30)%nat.
Proof.
  apply (call_tool_answers Sample.cheerio_li SampleTool.always_one
           Sample.no_jitter Sample.latency SampleTool.stringify 30).
  lia.
Defined.

(** ** More on the address *)

Lemma encode_char_query_chars c rest :
  all_chars query_char rest = true →
  all_chars query_char (UrlEncoded.encode_char c rest) = true.
Proof. by destruct c as [[] [] [] [] [] [] [] []]. Qed.

Lemma encode_query_chars s rest :
  all_chars query_char rest = true →
  all_chars query_char (UrlEncoded.encode s +:+ rest) = true.
Proof.
  intros Hrest. induction s as [|c s IH]; [done|].
  simpl. assert (∀ t, UrlEncoded.encode_char c (UrlEncoded.encode s) +:+ t
                      = UrlEncoded.encode_char c (UrlEncoded.encode s +:+ t))
    as ->; [|by apply encode_char_query_chars].
  intros t. unfold UrlEncoded.encode_char, UrlEncoded.percent.
  by repeat case_match.
Qed.

Lemma serialize_query_chars ps :
  all_chars query_char (UrlEncoded.serialize ps) = true.
Proof.
  induction ps as [|p ps IH]; [done|].
  rewrite serialize_cons. unfold UrlEncoded.encode_pair.
  destruct ps as [|p' ps].
  - apply encode_query_chars. simpl.
    rewrite <-(app_empty_r (UrlEncoded.encode p.2)).
    by apply encode_query_chars.
  - rewrite app_assoc_str. apply encode_query_chars. str_simpl.
    apply encode_query_chars. str_simpl. exact IH.
Qed.

(** X19. The parameter part of every request address is made of ASCII
    letters and digits and of the characters [* - . _ + % = &] only,
    whatever the keyword, the location and the filters hold: no white
    space and no raw special character reaches the address. *)
Theorem url_params_well_formed (q : Query) (o : Z) :
  all_chars query_char (UrlEncoded.serialize (url_params q o)) = true
  ∧ all_chars nonspace (UrlEncoded.serialize (url_params q o)) = true.
Proof.
  pose proof (serialize_query_chars (url_params q o)) as Hchars.
  split; [done|].
  induction (UrlEncoded.serialize (url_params q o)) as [|c s IH]; [done|].
  simpl in Hchars |- *. apply andb_true_iff in Hchars as [Hc Hs].
  rewrite (IH Hs), andb_true_r. clear -Hc.
  by destruct c as [[] [] [] [] [] [] [] []].
Qed.

(** X20. Two requests have the same address exactly when they go to the
    same host with the same parameters in the same order: the
    percent-encoding of the parameters loses nothing. *)
Theorem url_reads_back (q1 q2 : Query) (o1 o2 : Z) :
  url q1 o1 = url q2 o2
  ↔ host q1 = host q2 ∧ url_params q1 o1 = url_params q2 o2.
Proof.
  split; [apply url_inj|].
  intros [Hhost Hparams]. unfold url. by rewrite Hhost, Hparams.
Qed.
